(** * vscode-node-debug: the terminal service ([src/node/terminal.ts])

    A shallow embedding of the platform strategies
    ([DefaultTerminalService], [WindowsTerminalService],
    [LinuxTerminalService], [MacTerminalService]), of the [Terminal] facade
    that selects one of them, and of the two private utilities [quote] and
    [extendObject].

    Modelling choices.
    - JavaScript strings are [string]; [number]s that occur (process ids,
      exit codes, link ids) are [Z].
    - The process memory is one heap of cells addressed by index.  Plain
      objects used as dictionaries, service instances, promises, spawned
      child processes and captured mutable locals all live there, so object
      identity and mutation through aliases are those of the source.
    - A plain object is an ordinary object whose prototype chain ends in
      [Object.prototype]: the list of its own enumerable properties in the
      order of their creation, together with the enumerable properties it
      inherits.  [for ... in] visits the own names that are array indices in
      ascending order, then the other own names in the order of creation,
      then the inherited names.  [object.hasOwnProperty(key)] is a method
      call, looked up on the object like any property, and an assignment to
      [__proto__] goes to the accessor of [Object.prototype], which ignores
      a string.  [process.env] is taken to behave as such an object.
    - Node's API ([fs], [child_process], [path], [process]) and [vscode-nls]
      are not part of this module: they are the fields of a [Host] record.
      Every call that reaches the operating system is appended to a log, so
      that "without probing" or "before any spawn" can be stated.
    - A computation is a function from the process state to a result, which
      is a value or a thrown exception, and the next state.
    - Event listeners are defunctionalised: the closures the source registers
      with [on] are the constructors of [Callback]; a spawned child carries
      the events it is going to emit, and [emit_all] delivers them in order. *)

From Stdlib Require Import ZArith Lia Ascii String.
From stdpp Require Import base option list strings pretty.

Open Scope Z_scope.

(** ** Values *)

Abbreviation loc := nat.

(** [class TerminalError]: [linkId] is the optional second constructor
    argument; [None] is JavaScript's [undefined]. *)
Record TerminalError := new_TerminalError {
  message : string;
  linkId : option Z
}.

(** What can be thrown or passed to [reject]: a [TerminalError] built by this
    module, or an error object that comes from Node. *)
Inductive JSError :=
| TerminalErr (e : TerminalError)
| NativeErr (msg : string).

Inductive JSValue :=
| VUndefined
| VRef (l : loc).

Inductive Res (A : Type) :=
| Ret (a : A)
| Throw (e : JSError).
Arguments Ret {A} a.
Arguments Throw {A} e.

Inductive PromiseState :=
| Pending
| Fulfilled (v : JSValue)
| Rejected (e : JSError).

(** A plain object used as a dictionary from names to strings: [own] holds
    the own enumerable properties in the order of their creation,
    [inherited] the enumerable properties of its prototype chain in the
    order [for ... in] visits them. *)
Record JSObject := mkObject {
  own : list (string * string);
  inherited : list (string * string)
}.

Inductive ServiceClass :=
| DefaultTerminalService
| WindowsTerminalService
| LinuxTerminalService
| MacTerminalService.

(** Events of a [ChildProcess]: ['error'], ['data'] on its [stderr] stream,
    and ['exit'], which carries the exit code, or [null] and the name of the
    signal when a signal ended the child. *)
Inductive ChildEvent :=
| OnError (err : JSError)
| OnStderrData (data : string)
| OnExit (code : Z)
| OnExitSignal (signal : string).

Inductive EventName := ev_error | ev_stderr_data | ev_exit.

(** The closures that the source registers as listeners. *)
Inductive Callback :=
| cb_reject (promise : loc)
| cb_Linux_exit (promise : loc)
| cb_Mac_stderr_data (stderr : loc)
| cb_Mac_exit (promise stderr : loc).

(** What the operating system answers to [CP.spawn]: the process it started
    and the events that process will emit, in order. *)
Record ChildProcess := mkChild {
  pid : Z;
  events : list ChildEvent
}.

(** The result object of [CP.spawnSync]. *)
Record SpawnSyncResult := mkSpawnSyncResult {
  error : option JSError;
  status : option Z
}.

(** The [options] argument of [CP.spawn]; [windowsVerbatimArguments] is
    [false] when the source leaves it out. *)
Record SpawnOptions := mkOptions {
  cwd : string;
  env : loc;
  windowsVerbatimArguments : bool
}.

Inductive SysCall :=
| Call_existsSync (path : string)
| Call_execSync (command : string)
| Call_spawnSync (command : string) (args : list string)
| Call_spawn (command : string) (args : list string) (options : option SpawnOptions).

Inductive Cell :=
| CObject (o : JSObject)
| CService (cls : ServiceClass)
| CPromise (st : PromiseState)
| CChild (proc : ChildProcess) (listeners : list (EventName * Callback))
| CVar (s : string).

(** The state of the running process: its heap, the static field
    [Terminal._terminalService], and the log of system calls. *)
Record Proc := mkProc {
  heap : list Cell;
  _terminalService : option loc;
  syscalls : list SysCall
}.

(** What the module imports and the globals it reads. *)
Record Host := mkHost {
  process_platform : string;
  process_env : loc;
  __dirname : string;
  Path_join : string -> string -> string;
  localize : string -> string -> list string -> string;
  FS_existsSync : string -> bool;
  CP_execSync : string -> Res unit;
  CP_spawnSync : string -> list string -> Res SpawnSyncResult;
  CP_spawn : string -> list string -> option SpawnOptions -> Res ChildProcess
}.

(** ** Computations *)

Definition Run (A : Type) : Type := Proc -> Res A * Proc.

#[global] Instance Run_ret : MRet Run := fun A a s => (Ret a, s).

#[global] Instance Run_bind : MBind Run := fun A B f m s =>
  match m s with
  | (Ret a, s') => f a s'
  | (Throw e, s') => (Throw e, s')
  end.

Definition throw {A} (e : JSError) : Run A := fun s => (Throw e, s).

(** [try { body } catch (err) { handler }] *)
Definition try_catch {A} (body : Run A) (handler : JSError -> Run A) : Run A :=
  fun s =>
    match body s with
    | (Ret a, s') => (Ret a, s')
    | (Throw e, s') => handler e s'
    end.

Definition TypeError : JSError := NativeErr "TypeError".

Definition with_heap (h : list Cell) (s : Proc) : Proc :=
  mkProc h (_terminalService s) (syscalls s).

Definition log_call (c : SysCall) : Run unit :=
  fun s => (Ret tt, mkProc (heap s) (_terminalService s) (syscalls s ++ [c])).

(** [new]: a fresh cell at the end of the heap. *)
Definition alloc (c : Cell) : Run loc :=
  fun s => (Ret (length (heap s)), with_heap (heap s ++ [c]) s).

Definition read (l : loc) : Run Cell :=
  fun s =>
    match heap s !! l with
    | Some c => (Ret c, s)
    | None => (Throw TypeError, s)
    end.

Definition write (l : loc) (c : Cell) : Run unit :=
  fun s => (Ret tt, with_heap (<[l:=c]> (heap s)) s).

Fixpoint for_each {A} (l : list A) (body : A -> Run unit) : Run unit :=
  match l with
  | [] => mret tt
  | a :: rest => body a ;; for_each rest body
  end.

(** A result that is already there. *)
Definition lift {A} (r : Res A) : Run A := fun s => (r, s).

(** ** Objects as dictionaries *)

Fixpoint lookup_prop (key : string) (ps : list (string * string)) : option string :=
  match ps with
  | [] => None
  | (k, v) :: rest => if String.eqb k key then Some v else lookup_prop key rest
  end.

(** Assignment to a property: an existing own property keeps its place, a
    new one is added last. *)
Fixpoint assign_prop (key value : string) (ps : list (string * string))
  : list (string * string) :=
  match ps with
  | [] => [(key, value)]
  | (k, v) :: rest =>
      if String.eqb k key then (k, value) :: rest
      else (k, v) :: assign_prop key value rest
  end.

(** The built-in [Object.prototype.hasOwnProperty]. *)
Definition has_own (o : JSObject) (key : string) : bool :=
  bool_decide (is_Some (lookup_prop key (own o))).

(** [object[key]]: own properties shadow inherited ones. *)
Definition get_prop (o : JSObject) (key : string) : option string :=
  match lookup_prop key (own o) with
  | Some v => Some v
  | None => lookup_prop key (inherited o)
  end.

(** [object[key] = value], for a string [value].  The name [__proto__],
    unless the object has an own property of that name, is the accessor of
    [Object.prototype], and its setter ignores a string. *)
Definition set_prop (o : JSObject) (key value : string) : JSObject :=
  if String.eqb key "__proto__" && negb (has_own o "__proto__") then o
  else mkObject (assign_prop key value (own o)) (inherited o).

(** The value of a name that reads as a number. *)
Fixpoint digits_value (acc : N) (s : string) : option N :=
  match s with
  | EmptyString => Some acc
  | String c rest =>
      match Ascii.is_nat c with
      | Some d => digits_value (10 * acc + N.of_nat d) rest
      | None => None
      end
  end.

(** A name that is an array index: a number below [2^32 - 1] in decimal,
    without leading zeros. *)
Definition array_index (key : string) : option N :=
  match key with
  | EmptyString => None
  | String c rest =>
      if Ascii.eqb c "0" && negb (String.eqb rest "") then None
      else
        match digits_value 0 key with
        | Some n => if (n <? 4294967295)%N then Some n else None
        | None => None
        end
  end.

Fixpoint insert_index (e : N * string) (l : list (N * string)) : list (N * string) :=
  match l with
  | [] => [e]
  | x :: rest => if (e.1 <=? x.1)%N then e :: l else x :: insert_index e rest
  end.

Definition indexed (key : string) : option (N * string) :=
  match array_index key with
  | Some n => Some (n, key)
  | None => None
  end.

(** The own names in the order of enumeration: array indices ascending, then
    the others as created. *)
Definition own_keys (o : JSObject) : list string :=
  (foldr insert_index [] (omap indexed (own o).*1)).*2 ++
  filter (fun k => array_index k = None) (own o).*1.

(** The names [for (let key in object)] visits. *)
Definition for_in_keys (o : JSObject) : list string :=
  own_keys o ++
  filter (fun k => lookup_prop k (own o) = None) (inherited o).*1.

(** [object.hasOwnProperty(key)].  The method is looked up on [object]: an
    own or inherited enumerable property of that name holds a string, and
    calling it is a [TypeError]; otherwise the built-in is found. *)
Definition hasOwnProperty (o : JSObject) (key : string) : Res bool :=
  match get_prop o "hasOwnProperty" with
  | Some _ => Throw TypeError
  | None => Ret (has_own o key)
  end.

Definition read_object (l : loc) : Run JSObject :=
  c ← read l;
  match c with
  | CObject o => mret o
  | _ => throw TypeError
  end.

(** [for (let key in object) body]; nothing is visited when [object] is
    [undefined].  The body is given the object that is enumerated. *)
Definition for_in (object : option loc) (body : loc -> string -> Run unit)
  : Run unit :=
  match object with
  | None => mret tt
  | Some l => o ← read_object l; for_each (for_in_keys o) (body l)
  end.

(** ** Private utilities *)

(** [a.indexOf(' ')], for a single character. *)
Fixpoint indexOf_from (i : Z) (a : string) (c : ascii) : Z :=
  match a with
  | EmptyString => -1
  | String x rest => if Ascii.eqb x c then i else indexOf_from (i + 1) rest c
  end.

Definition indexOf (a : string) (c : ascii) : Z := indexOf_from 0 a c.

(** The one-character string holding a double quote. *)
Definition dq : string := String "034"%char EmptyString.

(** [function quote(args: string[]): string]: the loop body adds to [r]. *)
Definition quote_step (r a : string) : string :=
  let r :=
    if 0 <=? indexOf a " "
    then r +:+ (dq +:+ a +:+ dq)
    else r +:+ a in
  r +:+ " ".

Definition quote (args : list string) : string :=
  fold_left quote_step args "".

(** The body of the loop of [extendObject], for one [key] of [object]. *)
Definition extend_body (objectCopy object : loc) (key : string) : Run unit :=
  o ← read_object object;
  lift (hasOwnProperty o key) ≫= fun has : bool =>
  if has then
    target ← read_object objectCopy;
    match get_prop o key with
    | Some v => write objectCopy (CObject (set_prop target key v))
    | None => mret tt
    end
  else mret tt.

(** [function extendObject<T>(objectCopy: T, object: T): T] *)
Definition extendObject (objectCopy : loc) (object : option loc) : Run loc :=
  for_in object (extend_body objectCopy);;
  mret objectCopy.

(** ** Primitives of the host, logged *)

Section HostCalls.
Context (host : Host).

Definition existsSync (path : string) : Run bool :=
  log_call (Call_existsSync path);;
  mret (FS_existsSync host path).

Definition execSync (command : string) : Run unit :=
  log_call (Call_execSync command);;
  lift (CP_execSync host command).

Definition spawnSync (command : string) (args : list string) : Run SpawnSyncResult :=
  log_call (Call_spawnSync command args);;
  lift (CP_spawnSync host command args).

(** [CP.spawn] returns a new [ChildProcess] object without listeners. *)
Definition spawn (command : string) (args : list string)
    (options : option SpawnOptions) : Run loc :=
  log_call (Call_spawn command args options);;
  proc ← lift (CP_spawn host command args options);
  alloc (CChild proc []).
End HostCalls.

(** ** Promises and event emitters *)

Definition settle (p : loc) (st : PromiseState) : Run unit :=
  c ← read p;
  match c with
  | CPromise Pending => write p (CPromise st)
  | _ => mret tt
  end.

Definition resolve (p : loc) (v : JSValue) : Run unit := settle p (Fulfilled v).
Definition reject (p : loc) (e : JSError) : Run unit := settle p (Rejected e).

(** [new Promise((resolve, reject) => ...)]: the executor runs at once, and
    an exception it throws rejects the promise. *)
Definition new_Promise (executor : loc -> Run unit) : Run loc :=
  p ← alloc (CPromise Pending);
  try_catch (executor p) (fun e => reject p e);;
  mret p.

(** [emitter.on(name, listener)] *)
Definition on (child : loc) (name : EventName) (cb : Callback) : Run unit :=
  c ← read child;
  match c with
  | CChild proc listeners => write child (CChild proc (listeners ++ [(name, cb)]))
  | _ => throw TypeError
  end.

Definition read_var (l : loc) : Run string :=
  c ← read l;
  match c with
  | CVar s => mret s
  | _ => throw TypeError
  end.

Definition event_name (ev : ChildEvent) : EventName :=
  match ev with
  | OnError _ => ev_error
  | OnStderrData _ => ev_stderr_data
  | OnExit _ => ev_exit
  | OnExitSignal _ => ev_exit
  end.

Definition EventName_eqb (a b : EventName) : bool :=
  match a, b with
  | ev_error, ev_error | ev_stderr_data, ev_stderr_data | ev_exit, ev_exit => true
  | _, _ => false
  end.

(** The text of an exit code in a message; [None] is [null]. *)
Definition code_text (code : option Z) : string :=
  match code with
  | Some n => pretty n
  | None => "null"
  end.

(** ** The platform strategies *)

Module Default.
Section Service.
Context (host : Host).

(** [DefaultTerminalService.TERMINAL_TITLE] *)
Definition TERMINAL_TITLE : string :=
  localize host "console.title" "VS Code Console" [].

Definition WHICH : string := "/usr/bin/which".

Definition not_implemented : TerminalError :=
  new_TerminalError
    (localize host "external.console.not.implemented"
       "External console not implemented on '{0}'." [process_platform host])
    None.

Definition launchInTerminal (dir : string) (args : list string)
    (envVars : option loc) : Run loc :=
  new_Promise (fun p => reject p (TerminalErr not_implemented)).

Definition killTree (pid : Z) : Run loc :=
  new_Promise (fun p =>
    try_catch
      (let cmd := Path_join host (__dirname host) "./terminateProcess.sh" in
       result ← spawnSync host cmd [pretty pid];
       match error result with
       | Some err => reject p err
       | None => resolve p VUndefined
       end)
      (fun err => reject p err)).

Definition isOnPath (program : string) : Run bool :=
  try_catch
    (present ← existsSync host WHICH;
     (if negb present
      then execSync host (WHICH +:+ " '" +:+ program +:+ "'")
      else mret tt);;
     mret true)
    (fun _ => mret false).
End Service.
End Default.

(** [extendObject(extendObject({ }, process.env), envVars)] *)
Definition merged_env (host : Host) (envVars : option loc) : Run loc :=
  fresh ← alloc (CObject (mkObject [] []));
  copy ← extendObject fresh (Some (process_env host));
  extendObject copy envVars.

Module Windows.
Section Service.
Context (host : Host).

Definition CMD : string := "cmd.exe".
Definition WHERE : string := "where".

Definition title (dir : string) : string :=
  dq +:+ dir +:+ " - " +:+ Default.TERMINAL_TITLE host +:+ dq.

Definition command (args : list string) : string :=
  dq +:+ dq +:+ String.concat (dq +:+ " " +:+ dq) args +:+ dq +:+ " & pause" +:+ dq.

Definition cmdArgs (dir : string) (args : list string) : list string :=
  ["/c"; "start"; title dir; "/wait"; "cmd.exe"; "/c"; command args].

Definition launchInTerminal (dir : string) (args : list string)
    (envVars : option loc) : Run loc :=
  new_Promise (fun p =>
    env ← merged_env host envVars;
    let options := mkOptions dir env true in
    cmd ← spawn host CMD (cmdArgs dir args) (Some options);
    on cmd ev_error (cb_reject p);;
    resolve p (VRef cmd)).

Definition killTree (pid : Z) : Run loc :=
  new_Promise (fun p =>
    let cmd := "taskkill /F /T /PID " +:+ pretty pid in
    try_catch
      (execSync host cmd;;
       resolve p VUndefined)
      (fun err => reject p err)).

Definition isOnPath (program : string) : Run bool :=
  try_catch
    (execSync host (WHERE +:+ " " +:+ program);;
     mret true)
    (fun _ => mret false).
End Service.
End Windows.

Module Linux.
Section Service.
Context (host : Host).

Definition LINUX_TERM : string := "/usr/bin/gnome-terminal".

Definition WAIT_MESSAGE : string :=
  localize host "press.any.key" "Press any key to continue..." [].

Definition not_found : TerminalError :=
  new_TerminalError
    (localize host "program.not.found" "'{0}' not found" [LINUX_TERM])
    (Some 20002).

(** The error of the ['exit'] listener, for the text of the code. *)
Definition failed_text (code : string) : TerminalError :=
  new_TerminalError
    (localize host "program.failed" "{0} failed with exit code {1}"
       [LINUX_TERM; code])
    None.

Definition failed (code : Z) : TerminalError := failed_text (pretty code).

Definition bashCommand (args : list string) : string :=
  quote args +:+ "; echo; read -p " +:+ dq +:+ WAIT_MESSAGE +:+ dq +:+ " -n1;".

Definition termArgs (args : list string) : list string :=
  ["--title"; dq +:+ Default.TERMINAL_TITLE host +:+ dq;
   "-x"; "bash"; "-c";
   "''" +:+ bashCommand args +:+ "''"].

Definition launchInTerminal (dir : string) (args : list string)
    (envVars : option loc) : Run loc :=
  new_Promise (fun p =>
    present ← existsSync host LINUX_TERM;
    if negb present then
      reject p (TerminalErr not_found)
    else
      env ← merged_env host envVars;
      let options := mkOptions dir env false in
      cmd ← spawn host LINUX_TERM (termArgs args) (Some options);
      on cmd ev_error (cb_reject p);;
      on cmd ev_exit (cb_Linux_exit p)).

(** The ['exit'] listener; [code] is [None] for [null]. *)
Definition on_exit (p : loc) (code : option Z) : Run unit :=
  match code with
  | Some 0 => resolve p VUndefined
  | _ => reject p (TerminalErr (failed_text (code_text code)))
  end.
End Service.
End Linux.

Module Mac.
Section Service.
Context (host : Host).

Definition OSASCRIPT : string := "/usr/bin/osascript".

(** The generic error of the ['exit'] listener, for the text of the code. *)
Definition failed_text (code : string) : TerminalError :=
  new_TerminalError
    (localize host "program.failed" "{0} failed with exit code {1}"
       [OSASCRIPT; code])
    None.

Definition failed (code : Z) : TerminalError := failed_text (pretty code).

(** [key + '=' + envVars[key]] *)
Definition env_arg (o : JSObject) (key : string) : string :=
  key +:+ "=" +:+ default "undefined" (get_prop o key).

Definition osaArgs (dir : string) (args : list string)
    (envVars : option JSObject) : list string :=
  let osaArgs :=
    [Path_join host (__dirname host) "./terminalHelper.scpt";
     "-t"; Default.TERMINAL_TITLE host;
     "-w"; dir] in
  let osaArgs := fold_left (fun acc a => acc ++ ["-pa"; a]) args osaArgs in
  match envVars with
  | Some o =>
      fold_left (fun acc key => acc ++ ["-e"; env_arg o key]) (for_in_keys o) osaArgs
  | None => osaArgs
  end.

(** [envVars] is read where the source tests [if (envVars)] and
    enumerates it. *)
Definition launchInTerminal (dir : string) (args : list string)
    (envVars : option loc) : Run loc :=
  new_Promise (fun p =>
    vars ← match envVars with
           | Some l => o ← read_object l; mret (Some o)
           | None => mret None
           end;
    stderr ← alloc (CVar "");
    osa ← spawn host OSASCRIPT (osaArgs dir args vars) None;
    on osa ev_error (cb_reject p);;
    on osa ev_stderr_data (cb_Mac_stderr_data stderr);;
    on osa ev_exit (cb_Mac_exit p stderr)).

(** The ['data'] listener of [osa.stderr]. *)
Definition on_stderr_data (stderr : loc) (data : string) : Run unit :=
  s ← read_var stderr;
  write stderr (CVar (s +:+ data)).

(** The ['exit'] listener; [code] is [None] for [null]. *)
Definition on_exit (p stderr : loc) (code : option Z) : Run unit :=
  match code with
  | Some 0 => resolve p VUndefined
  | _ =>
      s ← read_var stderr;
      if negb (String.eqb s "") then
        reject p (TerminalErr (new_TerminalError s None))
      else
        reject p (TerminalErr (failed_text (code_text code)))
  end.
End Service.
End Mac.

(** ** Delivering the events of a child process *)

Section Events.
Context (host : Host).

(** Calling a registered listener with the payload of an event. *)
Definition call (cb : Callback) (ev : ChildEvent) : Run unit :=
  match cb, ev with
  | cb_reject p, OnError err => reject p err
  | cb_Linux_exit p, OnExit code => Linux.on_exit host p (Some code)
  | cb_Linux_exit p, OnExitSignal _ => Linux.on_exit host p None
  | cb_Mac_stderr_data stderr, OnStderrData data => Mac.on_stderr_data stderr data
  | cb_Mac_exit p stderr, OnExit code => Mac.on_exit host p stderr (Some code)
  | cb_Mac_exit p stderr, OnExitSignal _ => Mac.on_exit host p stderr None
  | _, _ => mret tt
  end.

(** [emitter.emit(name, payload)]: the listeners registered under the
    event's name run in the order of their registration. *)
Definition emit (child : loc) (ev : ChildEvent) : Run unit :=
  c ← read child;
  match c with
  | CChild _ listeners =>
      for_each listeners (fun l =>
        if EventName_eqb l.1 (event_name ev) then call l.2 ev else mret tt)
  | _ => throw TypeError
  end.

(** The event loop delivers everything the child emits. *)
Definition emit_all (child : loc) : Run unit :=
  c ← read child;
  match c with
  | CChild proc _ => for_each (events proc) (emit child)
  | _ => throw TypeError
  end.
End Events.

(** ** [interface ITerminalService]: method lookup by class *)

Module ITerminalService.
Section Dispatch.
Context (host : Host).

Definition launchInTerminal (cls : ServiceClass)
  : string -> list string -> option loc -> Run loc :=
  match cls with
  | DefaultTerminalService => Default.launchInTerminal host
  | WindowsTerminalService => Windows.launchInTerminal host
  | LinuxTerminalService => Linux.launchInTerminal host
  | MacTerminalService => Mac.launchInTerminal host
  end.

Definition killTree (cls : ServiceClass) : Z -> Run loc :=
  match cls with
  | WindowsTerminalService => Windows.killTree host
  | _ => Default.killTree host
  end.

Definition isOnPath (cls : ServiceClass) : string -> Run bool :=
  match cls with
  | WindowsTerminalService => Windows.isOnPath host
  | _ => Default.isOnPath host
  end.
End Dispatch.
End ITerminalService.

(** ** [class Terminal] *)

Module Terminal.
Section Facade.
Context (host : Host).

(** The class whose constructor [terminalService] calls. *)
Definition select (platform : string) : ServiceClass :=
  if String.eqb platform "win32" then WindowsTerminalService
  else if String.eqb platform "darwin" then MacTerminalService
  else if String.eqb platform "linux" then LinuxTerminalService
  else DefaultTerminalService.

Definition get_terminalService : Run (option loc) :=
  fun s => (Ret (_terminalService s), s).

Definition set_terminalService (inst : loc) : Run unit :=
  fun s => (Ret tt, mkProc (heap s) (Some inst) (syscalls s)).

Definition terminalService : Run loc :=
  cached ← get_terminalService;
  match cached with
  | None =>
      inst ← alloc (CService (select (process_platform host)));
      set_terminalService inst;;
      mret inst
  | Some inst => mret inst
  end.

Definition class_of (inst : loc) : Run ServiceClass :=
  c ← read inst;
  match c with
  | CService cls => mret cls
  | _ => throw TypeError
  end.

Definition launchInTerminal (dir : string) (args : list string)
    (envVars : option loc) : Run loc :=
  inst ← terminalService;
  cls ← class_of inst;
  ITerminalService.launchInTerminal host cls dir args envVars.

Definition killTree (processId : Z) : Run loc :=
  inst ← terminalService;
  cls ← class_of inst;
  ITerminalService.killTree host cls processId.

Definition isOnPath (program : string) : Run bool :=
  inst ← terminalService;
  cls ← class_of inst;
  ITerminalService.isOnPath host cls program.
End Facade.
End Terminal.

(** ** How a shell reads a command line

    The reference the quoting properties are measured against: the words a
    POSIX shell ([dash], or [bash] run on a script or with [-c]) takes from
    one line as the name and the arguments of a simple command.  Blanks
    outside quotes separate words; a backslash, single quotes and double
    quotes quote as in the shell; an unquoted [#] that begins a word begins
    a comment.  [Some words] says that the shell runs one simple command
    with exactly these words.  [None] is every other line: an open quote or
    a trailing backslash; an operator or a line feed outside quotes; a first
    word that is a reserved word, may be an assignment or names a job; a NUL
    character;
    and every place where the shell would or might rewrite a word (a dollar
    sign or backquote outside single quotes; an unquoted [*], [?], [[] or
    tilde; for [bash], an unquoted opening brace followed by a comma or a
    dot and then a closing brace). *)

Fixpoint has_char (c : ascii) (a : string) : bool :=
  match a with
  | EmptyString => false
  | String x rest => Ascii.eqb x c || has_char c rest
  end.

Module Shell.
Inductive Mode :=
| Unquoted
| Escaped
| InSingle
| InDouble
| InDoubleEscaped.

(** How far the unquoted characters of the current word are into a brace
    expansion. *)
Inductive Brace :=
| NoBrace
| Opened
| Listed.

Definition tab : ascii := "009"%char.
Definition newline : ascii := "010"%char.
Definition dquote : ascii := "034"%char.
Definition squote : ascii := "'"%char.
Definition backslash : ascii := "\"%char.

Definition is_blank (c : ascii) : bool :=
  Ascii.eqb c " " || Ascii.eqb c tab.

(** Characters that end a command or begin an operator. *)
Definition is_operator (c : ascii) : bool :=
  Ascii.eqb c newline || Ascii.eqb c ";" || Ascii.eqb c "&" || Ascii.eqb c "|" ||
  Ascii.eqb c "<" || Ascii.eqb c ">" || Ascii.eqb c "(" || Ascii.eqb c ")".

(** Characters that begin a parameter expansion or a command substitution. *)
Definition is_expansion (c : ascii) : bool :=
  Ascii.eqb c "$" || Ascii.eqb c "`".

(** Characters of a pattern for pathname expansion, and the tilde. *)
Definition is_glob (c : ascii) : bool :=
  Ascii.eqb c "*" || Ascii.eqb c "?" || Ascii.eqb c "[" || Ascii.eqb c "~".

(** Inside double quotes a backslash quotes only these. *)
Definition escapable_in_double (c : ascii) : bool :=
  Ascii.eqb c "$" || Ascii.eqb c "`" || Ascii.eqb c dquote || Ascii.eqb c backslash.

(** An unquoted character of a word, for brace expansion; [None] when it
    closes one. *)
Definition brace_step (b : Brace) (c : ascii) : option Brace :=
  if Ascii.eqb c "{" then
    Some match b with NoBrace => Opened | _ => b end
  else if Ascii.eqb c "," || Ascii.eqb c "." then
    Some match b with Opened => Listed | _ => b end
  else if Ascii.eqb c "}" then
    match b with Listed => None | _ => Some b end
  else Some b.

Definition started (cur : option string) : string := default "" cur.

Definition put (cur : option string) (c : ascii) : option string :=
  Some (started cur +:+ String c "").

Definition finish (cur : option string) (words : option (list string))
  : option (list string) :=
  match cur with
  | Some w => cons w <$> words
  | None => words
  end.

Definition begins_word (cur : option string) : bool :=
  match cur with
  | Some _ => false
  | None => true
  end.

(** The words of [s], read in mode [m]; [cur] is the word being read, if
    one has begun. *)
Fixpoint split_from (m : Mode) (b : Brace) (cur : option string) (s : string)
  : option (list string) :=
  match s with
  | EmptyString =>
      match m with
      | Unquoted => finish cur (Some [])
      | _ => None
      end
  | String c rest =>
      match m with
      | Unquoted =>
          if is_blank c then finish cur (split_from Unquoted NoBrace None rest)
          else if is_operator c || is_expansion c || is_glob c then None
          else if begins_word cur && Ascii.eqb c "#" then
            if has_char newline rest then None else Some []
          else if Ascii.eqb c backslash then split_from Escaped b cur rest
          else if Ascii.eqb c squote then split_from InSingle b (Some (started cur)) rest
          else if Ascii.eqb c dquote then split_from InDouble b (Some (started cur)) rest
          else
            match brace_step b c with
            | Some b' => split_from Unquoted b' (put cur c) rest
            | None => None
            end
      | Escaped =>
          if Ascii.eqb c newline then split_from Unquoted b cur rest
          else split_from Unquoted b (put cur c) rest
      | InSingle =>
          if Ascii.eqb c squote then split_from Unquoted b cur rest
          else split_from InSingle b (put cur c) rest
      | InDouble =>
          if Ascii.eqb c dquote then split_from Unquoted b cur rest
          else if Ascii.eqb c backslash then split_from InDoubleEscaped b cur rest
          else if is_expansion c then None
          else split_from InDouble b (put cur c) rest
      | InDoubleEscaped =>
          if escapable_in_double c then split_from InDouble b (put cur c) rest
          else if Ascii.eqb c newline then split_from InDouble b cur rest
          else split_from InDouble b (put (put cur backslash) c) rest
      end
  end.

(** The line as written up to its first blank, leading blanks aside: where
    the shell looks for a reserved word or an assignment. *)
Fixpoint upto_blank (s : string) : string :=
  match s with
  | EmptyString => EmptyString
  | String c rest => if is_blank c then EmptyString else String c (upto_blank rest)
  end.

Fixpoint command_word (line : string) : string :=
  match line with
  | EmptyString => EmptyString
  | String c rest => if is_blank c then command_word rest else upto_blank line
  end.

Definition reserved_words : list string :=
  ["!"; "{"; "}"; "[["; "]]"; "case"; "coproc"; "do"; "done"; "elif"; "else";
   "esac"; "fi"; "for"; "function"; "if"; "in"; "select"; "then"; "time";
   "until"; "while"].

Definition is_reserved (w : string) : bool :=
  existsb (String.eqb w) reserved_words.

Definition is_letter (c : ascii) : bool :=
  let n := nat_of_ascii c in
  (65 <=? n)%nat && (n <=? 90)%nat || (97 <=? n)%nat && (n <=? 122)%nat.

Definition is_digit (c : ascii) : bool :=
  let n := nat_of_ascii c in (48 <=? n)%nat && (n <=? 57)%nat.

(** What follows the name a word begins with. *)
Fixpoint after_name (w : string) : string :=
  match w with
  | EmptyString => EmptyString
  | String c rest =>
      if is_letter c || is_digit c || Ascii.eqb c "_" then after_name rest else w
  end.

(** A word written [name=...] or [name+=...]. *)
Definition is_assignment (w : string) : bool :=
  match w with
  | EmptyString => false
  | String c _ =>
      (is_letter c || Ascii.eqb c "_") &&
      match after_name w with
      | String "=" _ => true
      | String "+" (String "=" _) => true
      | _ => false
      end
  end.

(** A command name that begins with [%] stands for a job. *)
Definition is_job_spec (w : string) : bool :=
  match w with
  | String "%" _ => true
  | _ => false
  end.

Definition names_command (words : list string) : bool :=
  match words with
  | w :: _ => negb (is_job_spec w)
  | [] => true
  end.

Definition split (line : string) : option (list string) :=
  if has_char "000" line then None
  else if is_reserved (command_word line) || is_assignment (command_word line) then None
  else
    match split_from Unquoted NoBrace None line with
    | Some words => if names_command words then Some words else None
    | None => None
    end.
End Shell.

(** ** Notions used to state the properties *)

Fixpoint all_chars (ok : ascii -> bool) (a : string) : bool :=
  match a with
  | EmptyString => true
  | String x rest => ok x && all_chars ok rest
  end.

(** A character that is itself in a bare word. *)
Definition ordinary (c : ascii) : bool :=
  negb (Shell.is_blank c || Shell.is_operator c || Shell.is_expansion c ||
        Shell.is_glob c || Ascii.eqb c Shell.backslash ||
        Ascii.eqb c Shell.squote || Ascii.eqb c Shell.dquote).

(** No unquoted brace expansion from state [b] on. *)
Fixpoint brace_free (b : Shell.Brace) (a : string) : bool :=
  match a with
  | EmptyString => true
  | String c rest =>
      match Shell.brace_step b c with
      | Some b' => brace_free b' rest
      | None => false
      end
  end.

(** Every backslash is followed by a character, and that character is
    neither a backslash nor a line feed. *)
Fixpoint inert_backslashes (a : string) : bool :=
  match a with
  | EmptyString => true
  | String c rest =>
      if Ascii.eqb c Shell.backslash then
        match rest with
        | EmptyString => false
        | String d _ =>
            negb (Ascii.eqb d Shell.backslash) && negb (Ascii.eqb d Shell.newline) &&
            inert_backslashes rest
        end
      else inert_backslashes rest
  end.

(** An argument without a space, which [quote] leaves bare: it is not
    empty, does not begin with [#], and consists of ordinary characters
    that form no brace expansion. *)
Definition bare_safe (a : string) : bool :=
  match a with
  | EmptyString => false
  | String c _ =>
      negb (Ascii.eqb c "#") && all_chars ordinary a && brace_free Shell.NoBrace a
  end.

(** An argument with a space, which [quote] puts between double quotes: it
    has no double quote, dollar sign or backquote, and its backslashes are
    inert. *)
Definition quoted_safe (a : string) : bool :=
  negb (has_char Shell.dquote a) && negb (has_char "$" a) &&
  negb (has_char "`" a) && inert_backslashes a.

(** An argument that [quote] carries through the shell unchanged. *)
Definition shell_safe (a : string) : bool :=
  negb (has_char "000" a) &&
  (if has_char " " a then quoted_safe a else bare_safe a).

(** The first argument names the command: it must not begin with [%], and
    left bare by [quote], it must be neither a reserved word nor an
    assignment. *)
Definition command_safe (args : list string) : bool :=
  match args with
  | [] => true
  | a :: _ =>
      negb (Shell.is_job_spec a) &&
      (has_char " " a || negb (Shell.is_reserved a || Shell.is_assignment a))
  end.

(** What [quote] adds to [r] for one argument, said directly. *)
Definition quoted (a : string) : string :=
  (if has_char " " a then dq +:+ a +:+ dq else a) +:+ " ".

(** [objectCopy[key] = value], on the own properties of [objectCopy]. *)
Definition store_prop (key value : string) (ps : list (string * string))
  : list (string * string) :=
  own (set_prop (mkObject ps []) key value).

(** A name is stored as [assign_prop] does, unless it is [__proto__] and
    the object has no own property of that name. *)
Definition storable (key : string) (ps : list (string * string)) : Prop :=
  key <> "__proto__" \/ is_Some (lookup_prop "__proto__" ps).

(** The own properties of [objectCopy] after [extendObject(objectCopy, o)]
    has run through, when they were [ps] before. *)
Definition copy_props (o : JSObject) (ps : list (string * string))
  : list (string * string) :=
  fold_left
    (fun ps key =>
       match lookup_prop key (own o) with
       | Some v => store_prop key v ps
       | None => ps
       end)
    (for_in_keys o) ps.

(** [o.hasOwnProperty] is the built-in method: [o] has no enumerable
    property of that name, own or inherited. *)
Definition finds_builtin (o : JSObject) : Prop :=
  get_prop o "hasOwnProperty" = None.

(** [envVars] is [undefined] or refers to a plain object of the heap. *)
Definition env_object (h : list Cell) (envVars : option loc) (o : option JSObject) : Prop :=
  match envVars with
  | None => o = None
  | Some l => exists override, o = Some override /\ h !! l = Some (CObject override)
  end.

(** The error a synchronous spawn reports: the [error] property of its
    result, or the exception it throws. *)
Definition spawn_failure (r : Res SpawnSyncResult) : option JSError :=
  match r with
  | Ret result => error result
  | Throw e => Some e
  end.

Definition is_Ret {A} (r : Res A) : bool :=
  match r with
  | Ret _ => true
  | Throw _ => false
  end.

(** The text a child wrote to its error stream in a run of events. *)
Fixpoint stderr_text (evs : list ChildEvent) : string :=
  match evs with
  | [] => ""
  | OnStderrData data :: rest => data +:+ stderr_text rest
  | _ :: rest => stderr_text rest
  end.

Definition is_stderr_data (ev : ChildEvent) : bool :=
  match ev with
  | OnStderrData _ => true
  | _ => false
  end.

(** The cached instance, if there is one, is a service object. *)
Definition service_ok (s : Proc) : Prop :=
  match _terminalService s with
  | None => True
  | Some inst => exists cls, heap s !! inst = Some (CService cls)
  end.

(** A computation that never assigns [Terminal._terminalService]. *)
Definition keeps_service {A} (m : Run A) : Prop :=
  forall s, _terminalService (m s).2 = _terminalService s.

(** The own properties of the object [merged_env] builds. *)
Definition merged_props (ambient : JSObject) (override : option JSObject)
  : list (string * string) :=
  match override with
  | Some o => copy_props o (copy_props ambient [])
  | None => copy_props ambient []
  end.


(** The outcome expected of an exit of the AppleScript interpreter with
    [code] after it wrote [stderr] to its error stream. *)
Definition Mac_exit_outcome (host : Host) (code : Z) (stderr : string) : PromiseState :=
  if code =? 0 then Fulfilled VUndefined
  else
    Rejected (TerminalErr (new_TerminalError
      (if String.eqb stderr "" then
         localize host "program.failed" "{0} failed with exit code {1}"
           ["/usr/bin/osascript"; pretty code]
       else stderr)
      None)).

(** One event seen by the three listeners of the macOS strategy: the state
    of the promise and the text collected so far. *)
Definition Mac_step (host : Host) (st : PromiseState * string) (ev : ChildEvent)
  : PromiseState * string :=
  let settle_with (new : PromiseState) :=
    match st.1 with
    | Pending => new
    | settled => settled
    end in
  match ev with
  | OnError err => (settle_with (Rejected err), st.2)
  | OnStderrData data => (st.1, st.2 +:+ data)
  | OnExit code => (settle_with (Mac_exit_outcome host code st.2), st.2)
  | OnExitSignal _ =>
      (settle_with
         (Rejected (TerminalErr
            (if String.eqb st.2 "" then Mac.failed_text host "null"
             else new_TerminalError st.2 None))),
       st.2)
  end.

(** The listeners [MacTerminalService.launchInTerminal] registers, for a
    promise at [p] and the captured [stderr] at [p + 1]. *)
Definition Mac_listeners (p : loc) : list (EventName * Callback) :=
  [(ev_error, cb_reject p);
   (ev_stderr_data, cb_Mac_stderr_data (S p));
   (ev_exit, cb_Mac_exit p (S p))].

(** The heap after [MacTerminalService.launchInTerminal] on top of the cells
    [h]: the promise, the captured [stderr], and the child with its
    listeners. *)
Definition Mac_state (h : list Cell) (f : option loc) (lg : list SysCall)
    (proc : ChildProcess) (st : PromiseState * string) : Proc :=
  mkProc (h ++ [CPromise st.1; CVar st.2; CChild proc (Mac_listeners (length h))])
    f lg.

(** ** A host and a process state for the examples *)

(** Message formatting in the default locale: [{d}] stands for argument
    number [d]. *)
Fixpoint format (message : string) (args : list string) : string :=
  match message with
  | EmptyString => EmptyString
  | String c rest =>
      match rest with
      | String d (String close rest') =>
          match Ascii.is_nat d with
          | Some n =>
              if Ascii.eqb c "{" && Ascii.eqb close "}"
              then default "" (args !! n) +:+ format rest' args
              else String c (format rest args)
          | None => String c (format rest args)
          end
      | _ => String c (format rest args)
      end
  end.

Definition sample_join (dir file : string) : string :=
  dir +:+ "/" +:+
  match file with
  | String "." (String "/" name) => name
  | _ => file
  end.

(** A host on which the files for which [present] holds exist, every
    command run synchronously fails, the termination script runs, and every
    spawn yields [child]. *)
Definition sample_host (platform : string) (present : string -> bool)
    (child : ChildProcess) : Host :=
  mkHost platform 0%nat "/ext/out/node" sample_join
    (fun _ message args => format message args)
    present
    (fun _ => Throw (NativeErr "Command failed"))
    (fun _ _ => Ret (mkSpawnSyncResult None (Some 0)))
    (fun _ _ _ => Ret child).

(** [process.env] is [{PATH: "/bin"}], and a caller holds
    [{PATH: "/custom", FOO: "1"}]. *)
Definition boot : Proc :=
  mkProc
    [CObject (mkObject [("PATH", "/bin")] []);
     CObject (mkObject [("PATH", "/custom"); ("FOO", "1")] [])]
    None [].

(** ** Notions for the properties of the remaining code *)

(** What a cell is, apart from the part that the module updates in place:
    the properties of an object, the state of a promise, the listeners of a
    child, the text of a captured local. *)
Inductive CellKind :=
| KObject
| KService (cls : ServiceClass)
| KPromise
| KChild (proc : ChildProcess)
| KVar.

Definition cell_kind (c : Cell) : CellKind :=
  match c with
  | CObject _ => KObject
  | CService cls => KService cls
  | CPromise _ => KPromise
  | CChild proc _ => KChild proc
  | CVar _ => KVar
  end.

(** Every cell of [h] is still there in [h'], and is of the same kind. *)
Definition heap_evolves (h h' : list Cell) : Prop :=
  forall l c, h !! l = Some c ->
    exists c', h' !! l = Some c' /\ cell_kind c' = cell_kind c.

(** A computation under which the heap only evolves. *)
Definition evolves {A} (m : Run A) : Prop :=
  forall s, heap_evolves (heap s) (heap (m s).2).

(** A computation that, started on at least [n] cells, leaves the first [n]
    cells exactly as they are, and returns only values that satisfy
    [post]. *)
Definition frames {A} (n : nat) (m : Run A) (post : A -> Prop) : Prop :=
  forall s, (n <= length (heap s))%nat ->
    take n (heap (m s).2) = take n (heap s) /\
    (n <= length (heap (m s).2))%nat /\
    (forall a, (m s).1 = Ret a -> post a).

(** The listeners [LinuxTerminalService.launchInTerminal] registers for a
    promise at [p]. *)
Definition Linux_listeners (p : loc) : list (EventName * Callback) :=
  [(ev_error, cb_reject p); (ev_exit, cb_Linux_exit p)].

(** The heap after [LinuxTerminalService.launchInTerminal] on top of the
    cells [h]: the promise, the merged environment, and the child with its
    listeners. *)
Definition Linux_state (h : list Cell) (f : option loc) (lg : list SysCall)
    (merged : JSObject) (proc : ChildProcess) (st : PromiseState) : Proc :=
  mkProc (h ++ [CPromise st; CObject merged; CChild proc (Linux_listeners (length h))])
    f lg.

(** One event seen by the two listeners of the Linux strategy. *)
Definition Linux_step (host : Host) (st : PromiseState) (ev : ChildEvent)
  : PromiseState :=
  match st with
  | Pending =>
      match ev with
      | OnError err => Rejected err
      | OnStderrData _ => Pending
      | OnExit code =>
          if code =? 0 then Fulfilled VUndefined
          else Rejected (TerminalErr (Linux.failed host code))
      | OnExitSignal _ => Rejected (TerminalErr (Linux.failed_text host "null"))
      end
  | settled => settled
  end.

(** An argument between double quotes. *)
Definition wrapped (a : string) : string := dq +:+ a +:+ dq.

(** [Terminal._terminalService] holds [inst], an instance of [cls]. *)
Definition serves (s : Proc) (inst : loc) (cls : ServiceClass) : Prop :=
  _terminalService s = Some inst /\ heap s !! inst = Some (CService cls).

(** * Properties *)

(** ** The heap, seen as a frame and the cells allocated since *)

Section Frame.
Context (h t : list Cell) (f : option loc) (lg : list SysCall).

Lemma alloc_app c :
  alloc c (mkProc (h ++ t) f lg) =
  (Ret (length h + length t)%nat, mkProc (h ++ (t ++ [c])) f lg).
Proof. unfold alloc, with_heap; cbn. by rewrite length_app, <- (assoc_L (++)). Qed.

Lemma read_app k :
  read (length h + k)%nat (mkProc (h ++ t) f lg) =
  match t !! k with
  | Some c => (Ret c, mkProc (h ++ t) f lg)
  | None => (Throw TypeError, mkProc (h ++ t) f lg)
  end.
Proof.
  unfold read; cbn.
  by rewrite lookup_app_r, Nat.add_comm, Nat.add_sub by lia.
Qed.

Lemma read_frame l c :
  h !! l = Some c ->
  read l (mkProc (h ++ t) f lg) = (Ret c, mkProc (h ++ t) f lg).
Proof. intros Hl. unfold read; cbn. by rewrite (lookup_app_l_Some _ _ _ _ Hl). Qed.

Lemma write_app k c :
  write (length h + k)%nat c (mkProc (h ++ t) f lg) =
  (Ret tt, mkProc (h ++ <[k:=c]> t) f lg).
Proof. unfold write, with_heap; cbn. by rewrite insert_app_r. Qed.

Lemma read_app0 :
  read (length h) (mkProc (h ++ t) f lg) =
  match t !! 0%nat with
  | Some c => (Ret c, mkProc (h ++ t) f lg)
  | None => (Throw TypeError, mkProc (h ++ t) f lg)
  end.
Proof. rewrite <- (Nat.add_0_r (length h)) at 1. apply read_app. Qed.

Lemma write_app0 c :
  write (length h) c (mkProc (h ++ t) f lg) =
  (Ret tt, mkProc (h ++ <[0%nat:=c]> t) f lg).
Proof. rewrite <- (Nat.add_0_r (length h)) at 1. apply write_app. Qed.

Lemma log_call_eq c :
  log_call c (mkProc h f lg) = (Ret tt, mkProc h f (lg ++ [c])).
Proof. reflexivity. Qed.
End Frame.

Ltac unfold_run :=
  unfold new_Promise, try_catch, reject, resolve, settle, on, read_var, read_object,
    existsSync, execSync, spawnSync, spawn, lift, throw;
  unfold mbind, Run_bind, mret, Run_ret.

Ltac heap_step :=
  first [ rewrite alloc_app | rewrite read_app | rewrite write_app
        | rewrite read_app0 | rewrite write_app0 | rewrite log_call_eq ];
  cbn [length lookup list_lookup list_insert insert app Nat.add].

Ltac heap_steps := repeat heap_step.

(** Locations written with [S] are put in the form [length h + k]. *)
Ltac canon h :=
  try replace (S (S (length h))) with (length h + 2)%nat by lia;
  try replace (S (length h)) with (length h + 1)%nat by lia.

(** ** Default strategy: [killTree] *)

Lemma Default_killTree_run host pid h f lg :
  let cmd := Path_join host (__dirname host) "./terminateProcess.sh" in
  Default.killTree host pid (mkProc h f lg) =
  (Ret (length h),
   mkProc
     (h ++ [CPromise match spawn_failure (CP_spawnSync host cmd [pretty pid]) with
                     | Some e => Rejected e
                     | None => Fulfilled VUndefined
                     end])
     f (lg ++ [Call_spawnSync cmd [pretty pid]])).
Proof.
  intros cmd. rewrite <- (app_nil_r h) at 1.
  unfold Default.killTree. unfold_run. fold cmd.
  heap_steps.
  destruct (CP_spawnSync host cmd [pretty pid]) as [[[err|] st]|e];
    cbn [error spawn_failure]; heap_steps; by rewrite Nat.add_0_r.
Qed.

(** C8. [DefaultTerminalService.killTree(pid)] runs the termination script
    with the decimal process id as its only argument, and its promise is
    rejected exactly when that spawn reports an error (with that error);
    otherwise it is fulfilled with no value, whatever the exit status of the
    script. *)
Theorem Default_killTree_rejects_iff_spawn_fails host pid s :
  let cmd := Path_join host (__dirname host) "./terminateProcess.sh" in
  let answer := CP_spawnSync host cmd [pretty pid] in
  exists outcome,
    Default.killTree host pid s =
      (Ret (length (heap s)),
       mkProc (heap s ++ [CPromise outcome]) (_terminalService s)
         (syscalls s ++ [Call_spawnSync cmd [pretty pid]])) /\
    (forall e, outcome = Rejected e <-> spawn_failure answer = Some e) /\
    (outcome = Fulfilled VUndefined <-> spawn_failure answer = None) /\
    (forall code, answer = Ret (mkSpawnSyncResult None code) ->
                  outcome = Fulfilled VUndefined).
Proof.
  intros cmd answer. destruct s as [h f lg]; cbn [heap _terminalService syscalls].
  eexists; split; [apply Default_killTree_run |].
  fold cmd; fold answer.
  destruct (spawn_failure answer) as [e|] eqn:Hfail.
  - repeat split; try congruence.
    intros code Hcode. rewrite Hcode in Hfail. discriminate.
  - repeat split; congruence.
Qed.

(** ** [extendObject] and the merged environment *)

Lemma lookup_assign_eq key value ps :
  lookup_prop key (assign_prop key value ps) = Some value.
Proof.
  induction ps as [|[k v] ps IH]; cbn.
  - by rewrite String.eqb_refl.
  - destruct (String.eqb k key) eqn:Hk; cbn; by rewrite Hk.
Qed.

Lemma lookup_assign_ne key key' value ps :
  key <> key' ->
  lookup_prop key' (assign_prop key value ps) = lookup_prop key' ps.
Proof.
  intros Hne. induction ps as [|[k v] ps IH]; cbn.
  - by apply String.eqb_neq in Hne as ->.
  - destruct (String.eqb k key) eqn:Hk; cbn.
    + apply String.eqb_eq in Hk as ->. by apply String.eqb_neq in Hne as ->.
    + by rewrite IH.
Qed.

Lemma lookup_prop_Some_keys key v ps :
  lookup_prop key ps = Some v -> key ∈ ps.*1.
Proof.
  induction ps as [|[k w] ps IH]; cbn; [done |].
  destruct (String.eqb k key) eqn:Hk.
  - apply String.eqb_eq in Hk as ->. intros _. apply elem_of_cons; by left.
  - intros H. apply elem_of_cons; right; auto.
Qed.

(** Enumeration order does not change which names are visited. *)
Lemma elem_of_insert_index (x e : N * string) l :
  x ∈ insert_index e l <-> x = e \/ x ∈ l.
Proof.
  induction l as [|y l IH]; cbn [insert_index].
  - rewrite list_elem_of_singleton, elem_of_nil. tauto.
  - destruct (e.1 <=? y.1)%N.
    + by rewrite elem_of_cons.
    + rewrite !elem_of_cons, IH. tauto.
Qed.

Lemma elem_of_sort_index (x : N * string) l :
  x ∈ foldr insert_index [] l <-> x ∈ l.
Proof.
  induction l as [|y l IH]; cbn [foldr]; [done |].
  by rewrite elem_of_insert_index, elem_of_cons, IH.
Qed.

Lemma indexed_Some key e :
  indexed key = Some e <-> array_index key = Some e.1 /\ e.2 = key.
Proof.
  unfold indexed. destruct (array_index key) as [n|], e as [m k]; cbn.
  - split; [by intros [= -> ->] | by intros [[= ->] ->]].
  - split; [done | by intros [? _]].
Qed.

Lemma elem_of_own_keys key o : key ∈ own_keys o <-> key ∈ (own o).*1.
Proof.
  unfold own_keys. generalize (own o).*1 as keys. intros keys.
  rewrite elem_of_app, list_elem_of_fmap, list_elem_of_filter. split.
  - intros [(e & -> & He)|[_ Hin]]; [| done].
    apply elem_of_sort_index, list_elem_of_omap in He as (k & Hk & He).
    by apply indexed_Some in He as [_ ->].
  - intros Hin. destruct (array_index key) as [n|] eqn:Hidx; [left | by right].
    exists (n, key). split; [done |].
    apply elem_of_sort_index, list_elem_of_omap. exists key. split; [done |].
    by apply indexed_Some.
Qed.

Lemma own_keys_plain o :
  Forall (fun k => array_index k = None) (own o).*1 -> own_keys o = (own o).*1.
Proof.
  unfold own_keys. generalize (own o).*1 as keys.
  induction keys as [|k keys IH]; [done |].
  intros [Hk Hkeys]%Forall_cons. specialize (IH Hkeys).
  cbn [omap list_omap]. unfold indexed at 1. rewrite Hk.
  rewrite filter_cons_True by done.
  apply app_inv_tail_iff with (l := filter _ keys) in IH as Hnil || idtac.
  destruct (foldr insert_index [] (omap indexed keys)) as [|e l] eqn:Hsort.
  - cbn in *. by f_equal.
  - exfalso. assert (He : e ∈ foldr insert_index [] (omap indexed keys))
      by (rewrite Hsort; apply elem_of_cons; by left).
    apply elem_of_sort_index, list_elem_of_omap in He as (k' & Hin & He).
    apply indexed_Some in He as [He _].
    rewrite Forall_forall in Hkeys. by rewrite (Hkeys _ Hin) in He.
Qed.

(** ** Assignment to a property of the copy *)

Lemma set_prop_store c key value :
  set_prop c key value = mkObject (store_prop key value (own c)) (inherited c).
Proof.
  unfold store_prop, set_prop, has_own. destruct c as [ps inh]; cbn [own inherited].
  by destruct (String.eqb key "__proto__" &&
               negb (bool_decide (is_Some (lookup_prop "__proto__" ps)))).
Qed.

Lemma store_prop_eq key value ps :
  store_prop key value ps =
  if String.eqb key "__proto__" &&
     negb (bool_decide (is_Some (lookup_prop "__proto__" ps)))
  then ps else assign_prop key value ps.
Proof.
  unfold store_prop, set_prop, has_own; cbn [own inherited].
  by destruct (String.eqb key "__proto__" &&
               negb (bool_decide (is_Some (lookup_prop "__proto__" ps)))).
Qed.

Lemma lookup_store_eq key value ps :
  storable key ps -> lookup_prop key (store_prop key value ps) = Some value.
Proof.
  intros [Hkey|Hown]; rewrite store_prop_eq.
  - apply String.eqb_neq in Hkey as ->. apply lookup_assign_eq.
  - rewrite (bool_decide_eq_true_2 _ Hown), andb_false_r. apply lookup_assign_eq.
Qed.

Lemma lookup_store_ne key key' value ps :
  key <> key' -> lookup_prop key' (store_prop key value ps) = lookup_prop key' ps.
Proof.
  intros Hne. rewrite store_prop_eq.
  destruct (_ && _); [done | by apply lookup_assign_ne].
Qed.

(** [__proto__] does not become an own property by assignment. *)
Lemma lookup_store_proto key value ps :
  lookup_prop "__proto__" ps = None ->
  lookup_prop "__proto__" (store_prop key value ps) = None.
Proof.
  intros Hps. destruct (decide (key = "__proto__")) as [->|Hne].
  - rewrite store_prop_eq, Hps, String.eqb_refl.
    rewrite bool_decide_eq_false_2 by (by intros [? ?]). done.
  - by rewrite lookup_store_ne.
Qed.

Lemma storable_store key k value ps :
  storable key ps -> storable key (store_prop k value ps).
Proof.
  intros [Hkey|Hown]; [by left | right].
  destruct (decide (k = "__proto__")) as [->|Hne].
  - rewrite lookup_store_eq by (by right). eauto.
  - by rewrite lookup_store_ne.
Qed.

Lemma store_prop_id key value ps :
  lookup_prop key ps = Some value -> store_prop key value ps = ps.
Proof.
  intros Hkey. rewrite store_prop_eq. destruct (_ && _); [done |].
  revert Hkey. induction ps as [|[k w] ps IH]; cbn [lookup_prop assign_prop]; [done |].
  destruct (String.eqb k key); [by intros [= ->] |].
  intros H. by rewrite IH.
Qed.

(** Copying the properties named in [keys] from [src]. *)
Lemma lookup_copy_fold (src : list (string * string)) keys ps key :
  storable key ps ->
  lookup_prop key
    (fold_left
       (fun ps k => match lookup_prop k src with
                    | Some v => store_prop k v ps
                    | None => ps
                    end) keys ps) =
  match lookup_prop key src with
  | Some v => if bool_decide (key ∈ keys) then Some v else lookup_prop key ps
  | None => lookup_prop key ps
  end.
Proof.
  revert ps. induction keys as [|k keys IH]; intros ps Hproto; cbn [fold_left].
  - rewrite bool_decide_eq_false_2 by apply not_elem_of_nil.
    by destruct (lookup_prop key src).
  - rewrite IH by (destruct (lookup_prop k src); [by apply storable_store | done]).
    destruct (lookup_prop key src) as [v|] eqn:Hkey.
    + destruct (decide (key = k)) as [->|Hne].
      * rewrite Hkey, lookup_store_eq by done.
        rewrite (bool_decide_eq_true_2 (k ∈ k :: keys)) by (apply elem_of_cons; by left).
        by case_bool_decide.
      * assert (Hother : lookup_prop key
                  match lookup_prop k src with
                  | Some v0 => store_prop k v0 ps
                  | None => ps
                  end = lookup_prop key ps).
        { destruct (lookup_prop k src); [| done].
          by apply lookup_store_ne. }
        rewrite Hother.
        case_bool_decide as Hin.
        -- rewrite bool_decide_eq_true_2; [done |]. apply elem_of_cons; by right.
        -- rewrite bool_decide_eq_false_2; [done |].
           intros [?|?]%elem_of_cons; done.
    + destruct (lookup_prop k src) as [w|] eqn:Hk; [| done].
      apply lookup_store_ne. congruence.
Qed.

Lemma lookup_copy_fold_proto (src : list (string * string)) keys ps :
  lookup_prop "__proto__" ps = None ->
  lookup_prop "__proto__"
    (fold_left
       (fun ps k => match lookup_prop k src with
                    | Some v => store_prop k v ps
                    | None => ps
                    end) keys ps) = None.
Proof.
  revert ps. induction keys as [|k keys IH]; intros ps Hps; cbn [fold_left]; [done |].
  apply IH. destruct (lookup_prop k src); [| done]. by apply lookup_store_proto.
Qed.

(** [extendObject]: the own properties of [o] win, the others stay. *)
Lemma lookup_copy_props o ps key :
  storable key ps ->
  lookup_prop key (copy_props o ps) =
  match lookup_prop key (own o) with
  | Some v => Some v
  | None => lookup_prop key ps
  end.
Proof.
  intros Hproto. unfold copy_props. rewrite lookup_copy_fold by done.
  destruct (lookup_prop key (own o)) as [v|] eqn:Hkey; [| done].
  rewrite bool_decide_eq_true_2; [done |].
  unfold for_in_keys. apply elem_of_app; left.
  apply elem_of_own_keys. by eapply lookup_prop_Some_keys.
Qed.

Lemma lookup_copy_props_proto o ps :
  lookup_prop "__proto__" ps = None ->
  lookup_prop "__proto__" (copy_props o ps) = None.
Proof. apply lookup_copy_fold_proto. Qed.

Lemma bind_run {A B} (m : Run A) (k : A -> Run B) s :
  (m ≫= k) s =
  match m s with
  | (Ret a, s') => k a s'
  | (Throw e, s') => (Throw e, s')
  end.
Proof. reflexivity. Qed.

Lemma ret_run {A} (a : A) s : (mret a : Run A) s = (Ret a, s).
Proof. reflexivity. Qed.

Lemma lift_run {A} (r : Res A) s : lift r s = (r, s).
Proof. reflexivity. Qed.

(** [object.hasOwnProperty(key)] when the built-in is the method found. *)
Lemma hasOwnProperty_Some o key v :
  get_prop o "hasOwnProperty" = None ->
  lookup_prop key (own o) = Some v -> hasOwnProperty o key = Ret true.
Proof.
  intros Hm H. unfold hasOwnProperty, has_own. rewrite Hm. f_equal.
  apply bool_decide_eq_true_2. eauto.
Qed.

Lemma hasOwnProperty_None o key :
  get_prop o "hasOwnProperty" = None ->
  lookup_prop key (own o) = None -> hasOwnProperty o key = Ret false.
Proof.
  intros Hm H. unfold hasOwnProperty, has_own. rewrite Hm. f_equal.
  apply bool_decide_eq_false_2. rewrite H. by intros [? ?].
Qed.

(** ... and when a property of the object shadows it. *)
Lemma hasOwnProperty_shadowed o key v :
  get_prop o "hasOwnProperty" = Some v -> hasOwnProperty o key = Throw TypeError.
Proof. intros Hm. unfold hasOwnProperty. by rewrite Hm. Qed.

Lemma get_prop_own o key v :
  lookup_prop key (own o) = Some v -> get_prop o key = Some v.
Proof. intros H. unfold get_prop. by rewrite H. Qed.

(** A property that can be read is enumerated. *)
Lemma get_prop_for_in_keys o key v :
  get_prop o key = Some v -> key ∈ for_in_keys o.
Proof.
  unfold get_prop, for_in_keys. rewrite elem_of_app, elem_of_own_keys.
  destruct (lookup_prop key (own o)) as [w|] eqn:Hown.
  - intros _. left. by eapply lookup_prop_Some_keys.
  - intros Hinh. right. apply list_elem_of_filter. split; [done |].
    by eapply lookup_prop_Some_keys.
Qed.

Lemma read_object_frame h t f lg l o :
  h !! l = Some (CObject o) ->
  read_object l (mkProc (h ++ t) f lg) = (Ret o, mkProc (h ++ t) f lg).
Proof. intros Hl. unfold read_object. by rewrite bind_run, (read_frame _ _ _ _ _ _ Hl). Qed.

Lemma read_object_app h t f lg k :
  read_object (length h + k)%nat (mkProc (h ++ t) f lg) =
  match t !! k with
  | Some (CObject o) => (Ret o, mkProc (h ++ t) f lg)
  | _ => (Throw TypeError, mkProc (h ++ t) f lg)
  end.
Proof.
  unfold read_object. rewrite bind_run, read_app.
  by destruct (t !! k) as [[]|].
Qed.

Lemma read_object_at s l o :
  heap s !! l = Some (CObject o) -> read_object l s = (Ret o, s).
Proof. intros Hl. unfold read_object, read. rewrite bind_run. by rewrite Hl. Qed.

Section ExtendObject.
Context (h : list Cell) (f : option loc) (lg : list SysCall).
Context (obj : loc) (o : JSObject) (Hobj : h !! obj = Some (CObject o)).
Context (Hmethod : finds_builtin o).

Lemma extendObject_loop k keys : forall t c,
  t !! k = Some (CObject c) ->
  for_each keys (extend_body (length h + k)%nat obj) (mkProc (h ++ t) f lg) =
  (Ret tt,
   mkProc
     (h ++ <[k := CObject (mkObject
               (fold_left
                  (fun ps key => match lookup_prop key (own o) with
                                 | Some v => store_prop key v ps
                                 | None => ps
                                 end) keys (own c))
               (inherited c))]> t) f lg).
Proof.
  induction keys as [|key keys IH]; intros t c Ht; cbn [for_each fold_left].
  - destruct c as [ps inh]; cbn [own inherited].
    by rewrite list_insert_id.
  - rewrite bind_run. unfold extend_body at 1.
    rewrite bind_run, (read_object_frame _ _ _ _ _ _ Hobj), bind_run, lift_run.
    destruct (lookup_prop key (own o)) as [v|] eqn:Hkey.
    + rewrite (hasOwnProperty_Some _ _ _ Hmethod Hkey).
      rewrite bind_run, read_object_app, Ht, (get_prop_own _ _ _ Hkey), write_app.
      pose proof (lookup_lt_Some _ _ _ Ht) as Hlt.
      rewrite (IH _ (set_prop c key v)) by (by apply list_lookup_insert_eq).
      by rewrite list_insert_insert_eq, set_prop_store.
    + rewrite (hasOwnProperty_None _ _ Hmethod Hkey).
      by rewrite ret_run, (IH t c Ht).
Qed.

Lemma extendObject_app k t c :
  t !! k = Some (CObject c) ->
  extendObject (length h + k)%nat (Some obj) (mkProc (h ++ t) f lg) =
  (Ret (length h + k)%nat,
   mkProc
     (h ++ <[k := CObject (mkObject (copy_props o (own c)) (inherited c))]> t)
     f lg).
Proof.
  intros Ht. unfold extendObject, for_in.
  rewrite bind_run, bind_run, (read_object_frame _ _ _ _ _ _ Hobj).
  by rewrite (extendObject_loop k (for_in_keys o) t c Ht).
Qed.
End ExtendObject.

Lemma extendObject_undefined objectCopy s :
  extendObject objectCopy None s = (Ret objectCopy, s).
Proof. reflexivity. Qed.

(** A property named [hasOwnProperty] on the object that is copied: the
    first test of the loop throws, and nothing has been written. *)
Lemma extendObject_shadowed objectCopy obj o v s :
  heap s !! obj = Some (CObject o) ->
  get_prop o "hasOwnProperty" = Some v ->
  extendObject objectCopy (Some obj) s = (Throw TypeError, s).
Proof.
  intros Hobj Hm. unfold extendObject, for_in.
  rewrite bind_run, bind_run, (read_object_at _ _ _ Hobj).
  destruct (for_in_keys o) as [|key keys] eqn:Hkeys.
  - apply get_prop_for_in_keys in Hm. rewrite Hkeys in Hm.
    by apply elem_of_nil in Hm.
  - cbn [for_each]. rewrite bind_run. unfold extend_body at 1.
    rewrite bind_run, (read_object_at _ _ _ Hobj), bind_run, lift_run.
    by rewrite (hasOwnProperty_shadowed _ _ _ Hm).
Qed.

Lemma merged_env_app host h t f lg envVars ambient override :
  h !! process_env host = Some (CObject ambient) ->
  env_object h envVars override ->
  finds_builtin ambient ->
  from_option finds_builtin True override ->
  merged_env host envVars (mkProc (h ++ t) f lg) =
  (Ret (length h + length t)%nat,
   mkProc (h ++ t ++ [CObject (mkObject (merged_props ambient override) [])]) f lg).
Proof.
  intros Hamb Hvars Hma Hmo. unfold merged_env. unfold mbind, Run_bind.
  rewrite alloc_app.
  rewrite (extendObject_app h f lg _ ambient Hamb Hma (length t) _ (mkObject [] []))
    by (by rewrite lookup_app_r, Nat.sub_diag by lia).
  cbn [own inherited].
  destruct envVars as [l|]; cbn [env_object] in Hvars.
  - destruct Hvars as (o & -> & Hl). cbn [from_option] in Hmo.
    rewrite (extendObject_app h f lg _ o Hl Hmo (length t) _
               (mkObject (copy_props ambient []) []))
      by (rewrite insert_app_r_alt, Nat.sub_diag by lia;
          by rewrite lookup_app_r, Nat.sub_diag by lia).
    cbn [own inherited merged_props].
    do 2 f_equal. f_equal.
    rewrite !insert_app_r_alt, Nat.sub_diag by (rewrite ?length_app; cbn; lia).
    done.
  - subst override. rewrite extendObject_undefined. cbn [merged_props].
    do 2 f_equal. f_equal.
    by rewrite insert_app_r_alt, Nat.sub_diag by lia.
Qed.

(** The merge when [process.env] or [envVars] has a property named
    [hasOwnProperty]: a [TypeError], after the copy was allocated. *)
Lemma merged_env_shadowed host s envVars ambient override :
  heap s !! process_env host = Some (CObject ambient) ->
  env_object (heap s) envVars override ->
  ~ (finds_builtin ambient /\ from_option finds_builtin True override) ->
  exists copy,
    merged_env host envVars s =
    (Throw TypeError, with_heap (heap s ++ [CObject copy]) s).
Proof.
  intros Hamb Hvars Hno. destruct s as [h f lg]; cbn [heap] in *.
  unfold merged_env, with_heap; cbn [heap _terminalService syscalls].
  assert (Halloc : alloc (CObject (mkObject [] [])) (mkProc h f lg) =
                   (Ret (length h + 0)%nat, mkProc (h ++ [CObject (mkObject [] [])]) f lg)).
  { unfold alloc, with_heap; cbn. by rewrite Nat.add_0_r. }
  destruct (get_prop ambient "hasOwnProperty") as [v|] eqn:Hma.
  - exists (mkObject [] []). rewrite bind_run, Halloc, bind_run.
    rewrite (extendObject_shadowed _ _ ambient v);
      [done | by apply lookup_app_l_Some | done].
  - pose proof (extendObject_app h f lg _ ambient Hamb Hma 0%nat
                  [CObject (mkObject [] [])] (mkObject [] []) eq_refl) as Hcopy.
    cbn [own inherited list_insert insert] in Hcopy.
    destruct envVars as [l|]; cbn [env_object] in Hvars.
    + destruct Hvars as (o & -> & Hl). cbn [from_option] in Hno.
      destruct (get_prop o "hasOwnProperty") as [v|] eqn:Hmo.
      * eexists. rewrite bind_run, Halloc, bind_run, Hcopy.
        rewrite (extendObject_shadowed _ _ o v);
          [done | by apply lookup_app_l_Some | done].
      * by destruct Hno.
    + subst override. by destruct Hno.
Qed.

(** ** [isOnPath] *)

Lemma Default_isOnPath_run host program h f lg :
  let probe := "/usr/bin/which '" +:+ program +:+ "'" in
  Default.isOnPath host program (mkProc h f lg) =
  if FS_existsSync host "/usr/bin/which" then
    (Ret true, mkProc h f (lg ++ [Call_existsSync "/usr/bin/which"]))
  else
    (Ret (is_Ret (CP_execSync host probe)),
     mkProc h f (lg ++ [Call_existsSync "/usr/bin/which"; Call_execSync probe])).
Proof.
  intros probe. unfold Default.isOnPath, Default.WHICH. unfold_run.
  rewrite log_call_eq.
  destruct (FS_existsSync host "/usr/bin/which"); cbn [negb]; [done |].
  rewrite log_call_eq, <- (assoc_L (++)).
  change ("/usr/bin/which" +:+ " '" +:+ program +:+ "'") with probe.
  by destruct (CP_execSync host probe) as [[]|e].
Qed.

Lemma Windows_isOnPath_run host program h f lg :
  let probe := "where " +:+ program in
  Windows.isOnPath host program (mkProc h f lg) =
  (Ret (is_Ret (CP_execSync host probe)), mkProc h f (lg ++ [Call_execSync probe])).
Proof.
  intros probe. unfold Windows.isOnPath, Windows.WHERE. unfold_run.
  rewrite log_call_eq.
  change ("where" +:+ " " +:+ program) with probe.
  by destruct (CP_execSync host probe) as [[]|e].
Qed.

(** C1.  The code against the documented behaviour: when [/usr/bin/which]
    exists and running it on the program fails (the program is not on the
    path), [DefaultTerminalService.isOnPath] still answers [true], and the
    only system call it made is the existence test: the command was never
    run.  The documented answer is [false], after a probe. *)
Theorem Default_isOnPath_true_without_probe host program s e :
  FS_existsSync host "/usr/bin/which" = true ->
  CP_execSync host ("/usr/bin/which '" +:+ program +:+ "'") = Throw e ->
  Default.isOnPath host program s =
    (Ret true,
     mkProc (heap s) (_terminalService s)
       (syscalls s ++ [Call_existsSync "/usr/bin/which"])).
Proof.
  intros Hwhich _. destruct s as [h f lg].
  rewrite Default_isOnPath_run. by rewrite Hwhich.
Qed.

Lemma Default_isOnPath_true_without_probe_witness :
  Default.isOnPath
    (sample_host "freebsd" (fun _ => true) (mkChild 1 []))
    "no-such-program" boot =
  (Ret true,
   mkProc (heap boot) None [Call_existsSync "/usr/bin/which"]).
Proof.
  apply (Default_isOnPath_true_without_probe
           (sample_host "freebsd" (fun _ => true) (mkChild 1 []))
           "no-such-program" boot (NativeErr "Command failed"));
    reflexivity.
Defined.

(** X25. The other half: when [/usr/bin/which] does not exist,
    [DefaultTerminalService.isOnPath] runs [/usr/bin/which '<program>'], the
    program between single quotes, and answers whether that command
    succeeded. *)
Lemma Default_isOnPath_probes_without_which host program s :
  let probe := "/usr/bin/which '" +:+ program +:+ "'" in
  FS_existsSync host "/usr/bin/which" = false ->
  Default.isOnPath host program s =
    (Ret (is_Ret (CP_execSync host probe)),
     mkProc (heap s) (_terminalService s)
       (syscalls s ++ [Call_existsSync "/usr/bin/which"; Call_execSync probe])).
Proof.
  intros probe Hwhich. destruct s as [h f lg].
  rewrite Default_isOnPath_run. by rewrite Hwhich.
Qed.

(** C2. On every strategy and for every program string, [isOnPath] returns
    a boolean and throws nothing, it changes nothing but the log of system
    calls, and whenever a command it ran threw, the answer is [false]. *)
Theorem isOnPath_never_throws host cls program s :
  exists (answer : bool) (calls : list SysCall),
    ITerminalService.isOnPath host cls program s =
      (Ret answer,
       mkProc (heap s) (_terminalService s) (syscalls s ++ calls)) /\
    (forall command e,
       Call_execSync command ∈ calls ->
       CP_execSync host command = Throw e ->
       answer = false).
Proof.
  destruct s as [h f lg]; cbn [heap _terminalService syscalls].
  assert (Hdefault : exists (answer : bool) (calls : list SysCall),
    Default.isOnPath host program (mkProc h f lg) =
      (Ret answer, mkProc h f (lg ++ calls)) /\
    (forall command e,
       Call_execSync command ∈ calls ->
       CP_execSync host command = Throw e -> answer = false)).
  { rewrite Default_isOnPath_run.
    destruct (FS_existsSync host "/usr/bin/which");
      eexists; eexists; (split; [reflexivity |]); intros command e Hin Hthrow.
    - apply list_elem_of_singleton in Hin. discriminate.
    - apply elem_of_cons in Hin as [Hin | Hin]; [discriminate |].
      apply list_elem_of_singleton in Hin. injection Hin as <-.
      by rewrite Hthrow. }
  destruct cls; cbn [ITerminalService.isOnPath]; try exact Hdefault.
  rewrite Windows_isOnPath_run.
  eexists; eexists; split; [reflexivity |]. intros command e Hin Hthrow.
  apply list_elem_of_singleton in Hin. injection Hin as <-.
  by rewrite Hthrow.
Qed.

(** ** Linux strategy: the terminal emulator is missing *)

Lemma Linux_launchInTerminal_missing host dir args envVars h f lg :
  FS_existsSync host "/usr/bin/gnome-terminal" = false ->
  Linux.launchInTerminal host dir args envVars (mkProc h f lg) =
  (Ret (length h),
   mkProc (h ++ [CPromise (Rejected (TerminalErr (Linux.not_found host)))]) f
     (lg ++ [Call_existsSync "/usr/bin/gnome-terminal"])).
Proof.
  intros Hmissing. rewrite <- (app_nil_r h) at 1.
  unfold Linux.launchInTerminal, Linux.LINUX_TERM. unfold_run.
  heap_steps. rewrite Hmissing; cbn [negb]. heap_steps.
  by rewrite Nat.add_0_r.
Qed.

(** C6. When [/usr/bin/gnome-terminal] does not exist,
    [LinuxTerminalService.launchInTerminal] returns a promise that is already
    rejected, with a [TerminalError] whose message is the localized
    "'{0}' not found" for that path and whose [linkId] is 20002; the only
    system call made is the existence test, so nothing was spawned.  The
    other [TerminalError]s of the module carry no [linkId]. *)
Theorem Linux_launchInTerminal_not_found host dir args envVars s :
  FS_existsSync host "/usr/bin/gnome-terminal" = false ->
  Linux.launchInTerminal host dir args envVars s =
    (Ret (length (heap s)),
     mkProc
       (heap s ++
        [CPromise (Rejected (TerminalErr (new_TerminalError
           (localize host "program.not.found" "'{0}' not found"
              ["/usr/bin/gnome-terminal"])
           (Some 20002))))])
       (_terminalService s)
       (syscalls s ++ [Call_existsSync "/usr/bin/gnome-terminal"])) /\
  linkId (Default.not_implemented host) = None /\
  (forall code, linkId (Linux.failed host code) = None) /\
  (forall code, linkId (Mac.failed host code) = None).
Proof.
  intros Hmissing. destruct s as [h f lg]. split; [| done].
  by apply Linux_launchInTerminal_missing.
Qed.

(** ** Platform selection *)

Section KeepsService.
Context {A B : Type}.

Lemma keeps_ret (a : A) : keeps_service (mret a : Run A).
Proof. done. Qed.

Lemma keeps_throw e : keeps_service (throw e : Run A).
Proof. done. Qed.

Lemma keeps_lift (r : Res A) : keeps_service (lift r).
Proof. done. Qed.

Lemma keeps_bind (m : Run A) (k : A -> Run B) :
  keeps_service m -> (forall a, keeps_service (k a)) -> keeps_service (m ≫= k).
Proof.
  intros Hm Hk s. specialize (Hm s). unfold mbind, Run_bind.
  destruct (m s) as [[a|e] s1]; cbn in *; [| done].
  by rewrite Hk.
Qed.

Lemma keeps_try_catch (m : Run A) (k : JSError -> Run A) :
  keeps_service m -> (forall e, keeps_service (k e)) -> keeps_service (try_catch m k).
Proof.
  intros Hm Hk s. specialize (Hm s). unfold try_catch.
  destruct (m s) as [[a|e] s1]; cbn in *; [done |].
  by rewrite Hk.
Qed.

End KeepsService.

Lemma keeps_for_each {A} (l : list A) (body : A -> Run unit) :
  (forall a, keeps_service (body a)) -> keeps_service (for_each l body).
Proof.
  intros Hbody. induction l as [|a l IH]; cbn [for_each]; [done |].
  apply keeps_bind; auto.
Qed.

Lemma keeps_log_call c : keeps_service (log_call c).
Proof. done. Qed.

Lemma keeps_alloc c : keeps_service (alloc c).
Proof. done. Qed.

Lemma keeps_write l c : keeps_service (write l c).
Proof. done. Qed.

Lemma keeps_read l : keeps_service (read l).
Proof. intros s. unfold read. by destruct (heap s !! l). Qed.

Create HintDb keeps discriminated.
#[local] Hint Resolve keeps_ret keeps_throw keeps_lift keeps_log_call keeps_alloc
  keeps_write keeps_read : keeps.

Ltac keeps :=
  repeat first
    [ progress eauto with keeps
    | apply keeps_bind
    | apply keeps_try_catch
    | apply keeps_for_each
    | match goal with
      | |- forall _, _ => intro
      | |- keeps_service (match ?x with _ => _ end) => destruct x
      | |- keeps_service (if ?x then _ else _) => destruct x
      end ].

Lemma keeps_settle p st : keeps_service (settle p st).
Proof. unfold settle. keeps. Qed.

Lemma keeps_read_object l : keeps_service (read_object l).
Proof. unfold read_object. keeps. Qed.

Lemma keeps_read_var l : keeps_service (read_var l).
Proof. unfold read_var. keeps. Qed.

Lemma keeps_on child name cb : keeps_service (on child name cb).
Proof. unfold on. keeps. Qed.

#[local] Hint Resolve keeps_settle keeps_read_object keeps_read_var keeps_on : keeps.

Lemma keeps_new_Promise executor :
  (forall p, keeps_service (executor p)) -> keeps_service (new_Promise executor).
Proof. intros H. unfold new_Promise, reject. keeps. Qed.

Lemma keeps_extendObject objectCopy object :
  keeps_service (extendObject objectCopy object).
Proof. unfold extendObject, for_in. keeps. Qed.

#[local] Hint Resolve keeps_extendObject : keeps.

Lemma keeps_merged_env host envVars : keeps_service (merged_env host envVars).
Proof. unfold merged_env. keeps. Qed.

#[local] Hint Resolve keeps_merged_env : keeps.

Lemma keeps_strategy_launchInTerminal host cls dir args envVars :
  keeps_service (ITerminalService.launchInTerminal host cls dir args envVars).
Proof.
  destruct cls; cbn [ITerminalService.launchInTerminal];
    apply keeps_new_Promise; intros p;
    unfold resolve, reject, existsSync, spawn; keeps.
Qed.

Lemma keeps_strategy_killTree host cls pid :
  keeps_service (ITerminalService.killTree host cls pid).
Proof.
  destruct cls; cbn [ITerminalService.killTree];
    apply keeps_new_Promise; intros p;
    unfold resolve, reject, execSync, spawnSync; keeps.
Qed.

Lemma keeps_strategy_isOnPath host cls program :
  keeps_service (ITerminalService.isOnPath host cls program).
Proof.
  destruct cls; cbn [ITerminalService.isOnPath];
    unfold Default.isOnPath, Windows.isOnPath, existsSync, execSync; keeps.
Qed.

Lemma keeps_call host cb ev : keeps_service (call host cb ev).
Proof.
  destruct cb, ev; cbn [call];
    unfold Linux.on_exit, Mac.on_exit, Mac.on_stderr_data, resolve, reject; keeps.
Qed.

Lemma keeps_emit_all host child : keeps_service (emit_all host child).
Proof.
  unfold emit_all, emit. keeps. apply keeps_call.
Qed.

Lemma terminalService_cached host s inst :
  _terminalService s = Some inst ->
  Terminal.terminalService host s = (Ret inst, s).
Proof.
  intros Hinst. unfold Terminal.terminalService, Terminal.get_terminalService.
  unfold mbind, Run_bind. by rewrite Hinst.
Qed.

Lemma terminalService_first host h lg :
  Terminal.terminalService host (mkProc h None lg) =
  (Ret (length h),
   mkProc (h ++ [CService (Terminal.select (process_platform host))])
     (Some (length h)) lg).
Proof. reflexivity. Qed.

(** Through the facade, an operation leaves a cached instance in place. *)
Lemma facade_keeps_instance {A} host (op : ServiceClass -> Run A) s inst :
  (forall cls, keeps_service (op cls)) ->
  _terminalService s = Some inst ->
  _terminalService
    ((i ← Terminal.terminalService host;
      cls ← Terminal.class_of i;
      op cls) s).2 = Some inst.
Proof.
  intros Hop Hinst. unfold mbind, Run_bind.
  rewrite (terminalService_cached _ _ _ Hinst).
  unfold Terminal.class_of, mbind, Run_bind, read, throw.
  destruct (heap s !! inst) as [[]|]; cbn; try done.
  by rewrite Hop.
Qed.

Lemma strategy_isOnPath_returns host cls program s :
  exists (answer : bool) s',
    ITerminalService.isOnPath host cls program s = (Ret answer, s').
Proof.
  destruct s as [h f lg].
  destruct cls; cbn [ITerminalService.isOnPath];
    rewrite ?Default_isOnPath_run, ?Windows_isOnPath_run;
    try destruct (FS_existsSync host "/usr/bin/which"); eauto.
Qed.

(** X26. Through the facade too, [isOnPath] returns a boolean and throws
    nothing, as long as what [Terminal._terminalService] holds, if anything,
    is a service instance. *)
Lemma Terminal_isOnPath_never_throws host program s :
  service_ok s ->
  exists (answer : bool) s', Terminal.isOnPath host program s = (Ret answer, s').
Proof.
  destruct s as [h f lg]. unfold service_ok; cbn [heap _terminalService].
  intros Hok. unfold Terminal.isOnPath.
  destruct f as [inst|].
  - destruct Hok as [cls Hcls].
    rewrite bind_run, (terminalService_cached host _ inst) by done.
    unfold Terminal.class_of. rewrite bind_run, bind_run.
    unfold read; cbn [heap]. rewrite Hcls, ret_run.
    apply strategy_isOnPath_returns.
  - rewrite bind_run, terminalService_first.
    unfold Terminal.class_of. rewrite bind_run, bind_run.
    rewrite read_app0. cbn [lookup list_lookup]. rewrite ret_run.
    apply strategy_isOnPath_returns.
Qed.


(** ** Windows strategy: [launchInTerminal] *)


(** The executor of a strategy that merges the environment, when
    [process.env] or [envVars] has a property named [hasOwnProperty]: the
    [TypeError] of the merge rejects the promise, and what comes after the
    merge does not run. *)
Lemma new_Promise_merge_shadowed host envVars ambient override
    (rest : loc -> loc -> Run unit) h f lg :
  h !! process_env host = Some (CObject ambient) ->
  env_object h envVars override ->
  ~ (finds_builtin ambient /\ from_option finds_builtin True override) ->
  exists copy,
    new_Promise (fun p => env ← merged_env host envVars; rest p env) (mkProc h f lg) =
    (Ret (length h),
     mkProc (h ++ [CPromise (Rejected TypeError); CObject copy]) f lg).
Proof.
  intros Hamb Hvars Hno.
  destruct (merged_env_shadowed host (mkProc (h ++ [CPromise Pending]) f lg)
              envVars ambient override) as [copy Hmerge]; cbn [heap]; try done.
  { by apply lookup_app_l_Some. }
  { destruct envVars as [l|]; cbn [env_object] in *; [| done].
    destruct Hvars as (o & -> & Hl). exists o. split; [done |].
    by apply lookup_app_l_Some. }
  exists copy. unfold new_Promise.
  rewrite bind_run. unfold alloc at 1, with_heap; cbn [heap _terminalService syscalls].
  rewrite bind_run. unfold try_catch. rewrite bind_run, Hmerge.
  unfold with_heap; cbn [heap _terminalService syscalls].
  rewrite <- (assoc_L (++)). cbn [app].
  unfold reject, settle. rewrite bind_run.
  rewrite <- (Nat.add_0_r (length h)) at 1. rewrite read_app.
  cbn [lookup list_lookup]. rewrite <- (Nat.add_0_r (length h)) at 1.
  rewrite write_app. cbn [list_insert insert]. by rewrite ret_run.
Qed.



(** ** macOS strategy: [launchInTerminal] *)

Lemma append_cons x (a b : string) : String x a +:+ b = String x (a +:+ b).
Proof. reflexivity. Qed.

Lemma append_nil_l (a : string) : "" +:+ a = a.
Proof. reflexivity. Qed.

Lemma append_nil_r (a : string) : a +:+ "" = a.
Proof. induction a as [|x a IH]; [done | by rewrite append_cons, IH]. Qed.

Lemma append_assoc (a b c : string) : (a +:+ b) +:+ c = a +:+ (b +:+ c).
Proof. induction a as [|x a IH]; [done | by rewrite !append_cons, IH]. Qed.

Lemma Mac_launchInTerminal_run host dir args envVars h f lg override proc :
  let p := length h in
  let argv := Mac.osaArgs host dir args override in
  env_object h envVars override ->
  CP_spawn host "/usr/bin/osascript" argv None = Ret proc ->
  Mac.launchInTerminal host dir args envVars (mkProc h f lg) =
  (Ret p,
   mkProc (h ++ [CPromise Pending; CVar ""; CChild proc (Mac_listeners p)])
     f (lg ++ [Call_spawn "/usr/bin/osascript" argv None])).
Proof.
  intros p argv Hvars Hspawn. rewrite <- (app_nil_r h) at 1.
  unfold Mac.launchInTerminal, new_Promise.
  rewrite bind_run, alloc_app. cbn [length app].
  rewrite bind_run. unfold try_catch. rewrite bind_run.
  assert (Hread :
    match envVars with
    | Some l => o ← read_object l; mret (Some o)
    | None => mret None
    end (mkProc (h ++ [CPromise Pending]) f lg) =
    (Ret override, mkProc (h ++ [CPromise Pending]) f lg)).
  { destruct envVars as [l|]; cbn [env_object] in Hvars.
    - destruct Hvars as (o & -> & Hl).
      by rewrite bind_run, (read_object_frame _ _ _ _ _ _ Hl).
    - by subst override. }
  rewrite Hread. rewrite bind_run, alloc_app. cbn [length app].
  rewrite bind_run. unfold spawn.
  rewrite bind_run, log_call_eq, bind_run. unfold lift, Mac.OSASCRIPT.
  fold argv. rewrite Hspawn.
  unfold_run. heap_steps.
  subst p. rewrite !Nat.add_0_r. unfold Mac_listeners.
  by replace (length h + 1)%nat with (S (length h)) by lia.
Qed.

Section MacEvents.
Context (host : Host) (h : list Cell) (f : option loc) (lg : list SysCall).
Context (proc : ChildProcess).

Lemma Mac_emit ev st :
  emit host (S (S (length h))) ev (Mac_state h f lg proc st) =
  (Ret tt, Mac_state h f lg proc (Mac_step host st ev)).
Proof.
  destruct st as [st text]. unfold Mac_state, Mac_listeners; cbn [fst snd].
  canon h.
  unfold emit. rewrite bind_run, read_app. cbn [lookup list_lookup for_each fst snd].
  destruct ev as [err|data|code|signal];
    cbn [event_name EventName_eqb call Mac_step fst snd];
    unfold Mac.on_exit, Mac.on_stderr_data, Mac_exit_outcome.
  - unfold_run. heap_steps. destruct st; heap_steps; done.
  - unfold_run. heap_steps. done.
  - destruct code as [|c|c]; cbn [Z.eqb code_text];
      unfold Mac.failed_text, Mac.OSASCRIPT; unfold_run; heap_steps;
      [| destruct (String.eqb text ""); cbn [negb]; heap_steps ..];
      destruct st; heap_steps; done.
  - cbn [code_text]. unfold_run. heap_steps.
    destruct (String.eqb text ""); cbn [negb];
      heap_steps; destruct st; heap_steps; done.
Qed.

Lemma Mac_emit_events evs : forall st,
  for_each evs (emit host (S (S (length h)))) (Mac_state h f lg proc st) =
  (Ret tt, Mac_state h f lg proc (fold_left (Mac_step host) evs st)).
Proof.
  induction evs as [|ev evs IH]; intros st; cbn [for_each fold_left]; [done |].
  by rewrite bind_run, Mac_emit, IH.
Qed.
End MacEvents.

Lemma Mac_step_data host evs : forall st,
  forallb is_stderr_data evs = true ->
  fold_left (Mac_step host) evs st = (st.1, st.2 +:+ stderr_text evs).
Proof.
  induction evs as [|ev evs IH]; intros [st text] Hdata; cbn [fold_left stderr_text fst snd].
  - by rewrite append_nil_r.
  - cbn [forallb] in Hdata. apply andb_prop in Hdata as [Hev Hevs].
    destruct ev; try discriminate.
    rewrite IH by done. cbn [Mac_step fst snd]. by rewrite append_assoc.
Qed.

Lemma Mac_step_settled host evs : forall st,
  st.1 <> Pending -> (fold_left (Mac_step host) evs st).1 = st.1.
Proof.
  induction evs as [|ev evs IH]; intros [st text] Hst; cbn [fold_left fst snd] in *;
    [done |].
  rewrite IH; destruct st, ev; cbn [Mac_step fst snd] in *; congruence.
Qed.

Lemma Mac_exit_outcome_settled host code text : Mac_exit_outcome host code text <> Pending.
Proof. unfold Mac_exit_outcome. by destruct (code =? 0). Qed.

(** C9. With a spawned interpreter that emits no ['error'] before it exits,
    the promise of [MacTerminalService.launchInTerminal] ends fulfilled with
    no value when the exit code is 0; when it is not 0 it ends rejected with
    a [TerminalError] without [linkId] whose message is everything the
    interpreter wrote to its error stream before exiting if that is not
    empty, and otherwise the localized "{0} failed with exit code {1}" for
    [/usr/bin/osascript] and the code. *)
Theorem Mac_launchInTerminal_outcome
    host dir args envVars s override proc pre code post :
  let p := length (heap s) in
  let osa := S (S p) in
  env_object (heap s) envVars override ->
  CP_spawn host "/usr/bin/osascript" (Mac.osaArgs host dir args override) None
    = Ret proc ->
  events proc = pre ++ OnExit code :: post ->
  forallb is_stderr_data pre = true ->
  exists s1 s2,
    Mac.launchInTerminal host dir args envVars s = (Ret p, s1) /\
    heap s1 !! p = Some (CPromise Pending) /\
    emit_all host osa s1 = (Ret tt, s2) /\
    heap s2 !! p = Some (CPromise
      (if code =? 0 then Fulfilled VUndefined
       else Rejected (TerminalErr (new_TerminalError
              (if String.eqb (stderr_text pre) "" then
                 localize host "program.failed" "{0} failed with exit code {1}"
                   ["/usr/bin/osascript"; pretty code]
               else stderr_text pre)
              None)))).
Proof.
  intros p osa Hvars Hspawn Hevents Hpre.
  destruct s as [h f lg]; cbn [heap _terminalService syscalls] in *.
  eexists; eexists. split; [| split; [| split]].
  - by apply (Mac_launchInTerminal_run host dir args envVars h f lg override).
  - cbn [heap]. subst p. rewrite <- (Nat.add_0_r (length h)) at 1.
    by rewrite lookup_app_r, Nat.add_comm, Nat.add_sub by lia.
  - unfold emit_all. rewrite bind_run.
    subst osa p. replace (S (S (length h))) with (length h + 2)%nat by lia.
    rewrite read_app. cbn [lookup list_lookup].
    replace (length h + 2)%nat with (S (S (length h))) by lia.
    apply (Mac_emit_events host h f _ proc (events proc) (Pending, "")).
  - unfold Mac_state. cbn [heap fst snd]. subst p.
    rewrite <- (Nat.add_0_r (length h)) at 1.
    rewrite lookup_app_r, Nat.add_comm, Nat.add_sub by lia.
    cbn [lookup list_lookup]. do 2 f_equal.
    rewrite Hevents, fold_left_app. cbn [fold_left].
    rewrite Mac_step_settled.
    + rewrite Mac_step_data by done. reflexivity.
    + rewrite Mac_step_data by done. cbn [Mac_step fst snd].
      apply Mac_exit_outcome_settled.
Qed.

(** ** [quote] *)

Lemma indexOf_from_has_char c a : forall i,
  0 <= i -> (0 <=? indexOf_from i a c) = has_char c a.
Proof.
  induction a as [|x a IH]; intros i Hi; cbn [indexOf_from has_char]; [done |].
  destruct (Ascii.eqb x c); cbn [orb].
  - by apply Z.leb_le.
  - apply IH. lia.
Qed.

Lemma quote_step_quoted r a : quote_step r a = r +:+ quoted a.
Proof.
  unfold quote_step, quoted, indexOf.
  rewrite indexOf_from_has_char by done.
  destruct (has_char " " a); by rewrite !append_assoc.
Qed.

Lemma quote_from args : forall r,
  fold_left quote_step args r = r +:+ quote args.
Proof.
  unfold quote. induction args as [|a args IH]; intros r; cbn [fold_left].
  - by rewrite append_nil_r.
  - rewrite IH, (IH (quote_step "" a)), !quote_step_quoted.
    by rewrite append_nil_l, append_assoc.
Qed.

Lemma quote_cons a args : quote (a :: args) = quoted a +:+ quote args.
Proof.
  unfold quote at 1. cbn [fold_left].
  by rewrite quote_from, quote_step_quoted, append_nil_l.
Qed.

(** ** Reading a quoted line back *)

Lemma has_char_cons_false c x a :
  has_char c (String x a) = false -> Ascii.eqb x c = false /\ has_char c a = false.
Proof. cbn [has_char]. by intros [? ?]%orb_false_elim. Qed.

Lemma has_char_append c a b :
  has_char c (a +:+ b) = has_char c a || has_char c b.
Proof.
  induction a as [|x a IH]; [done |].
  rewrite append_cons. cbn [has_char]. by rewrite IH, orb_assoc.
Qed.

Lemma ordinary_inv c :
  ordinary c = true ->
  Shell.is_blank c = false /\ Shell.is_operator c = false /\
  Shell.is_expansion c = false /\ Shell.is_glob c = false /\
  Ascii.eqb c Shell.backslash = false /\ Ascii.eqb c Shell.squote = false /\
  Ascii.eqb c Shell.dquote = false.
Proof.
  unfold ordinary. rewrite negb_true_iff, !orb_false_iff. tauto.
Qed.

Lemma put_Some u c : Shell.put (Some u) c = Some (u +:+ String c "").
Proof. reflexivity. Qed.

Lemma put_None c : Shell.put None c = Some (String c "").
Proof. reflexivity. Qed.

(** A run of ordinary characters joins the word being read, and the blank
    after it ends the word. *)
Lemma split_bare w : forall b u rest,
  all_chars ordinary w = true -> brace_free b w = true ->
  Shell.split_from Shell.Unquoted b (Some u) (w +:+ String " " rest) =
  cons (u +:+ w) <$> Shell.split_from Shell.Unquoted Shell.NoBrace None rest.
Proof.
  induction w as [|c w IH]; intros b u rest Hord Hbrace.
  - by rewrite append_nil_l, append_nil_r.
  - cbn [all_chars] in Hord. apply andb_prop in Hord as [Hc Hord].
    apply ordinary_inv in Hc as (Hbl & Hop & Hex & Hgl & Hbs & Hsq & Hdq).
    cbn [brace_free] in Hbrace.
    rewrite append_cons. cbn [Shell.split_from Shell.begins_word andb].
    rewrite Hbl, Hop, Hex, Hgl, Hbs, Hsq, Hdq. cbn [orb].
    destruct (Shell.brace_step b c) as [b'|]; [| done].
    rewrite put_Some, IH by done. by rewrite append_assoc.
Qed.

(** An argument that [quote] leaves bare is read back as one word. *)
Lemma split_bare_word a rest :
  bare_safe a = true ->
  Shell.split_from Shell.Unquoted Shell.NoBrace None (a +:+ String " " rest) =
  cons a <$> Shell.split_from Shell.Unquoted Shell.NoBrace None rest.
Proof.
  unfold bare_safe. destruct a as [|c a]; [done |].
  intros [[Hhash%negb_true_iff Hord]%andb_prop Hbrace]%andb_prop.
  cbn [all_chars] in Hord. apply andb_prop in Hord as [Hc Hord].
  apply ordinary_inv in Hc as (Hbl & Hop & Hex & Hgl & Hbs & Hsq & Hdq).
  cbn [brace_free] in Hbrace.
  rewrite append_cons. cbn [Shell.split_from Shell.begins_word andb].
  rewrite Hbl, Hop, Hex, Hgl, Hhash, Hbs, Hsq, Hdq. cbn [orb].
  destruct (Shell.brace_step Shell.NoBrace c) as [b'|]; [| done].
  by rewrite put_None, split_bare.
Qed.

Lemma quoted_safe_inv w :
  quoted_safe w = true <->
  has_char Shell.dquote w = false /\ has_char "$" w = false /\
  has_char "`" w = false /\ inert_backslashes w = true.
Proof.
  unfold quoted_safe. rewrite !andb_true_iff, !negb_true_iff. tauto.
Qed.

Lemma quoted_safe_cons c w :
  quoted_safe (String c w) = true ->
  Ascii.eqb c Shell.dquote = false /\ Shell.is_expansion c = false /\
  quoted_safe w = true /\
  (Ascii.eqb c Shell.backslash = true ->
   exists d w', w = String d w' /\ Shell.escapable_in_double d = false /\
                Ascii.eqb d Shell.newline = false).
Proof.
  rewrite !quoted_safe_inv. intros (Hdq & Hdollar & Hback & Hinert).
  apply has_char_cons_false in Hdq as [Hdq Hdq'], Hdollar as [Hdollar Hdollar'],
    Hback as [Hback Hback'].
  unfold Shell.is_expansion. rewrite Hdq, Hdollar, Hback.
  cbn [inert_backslashes] in Hinert.
  destruct (Ascii.eqb c Shell.backslash).
  - destruct w as [|d w']; [done |].
    apply andb_prop in Hinert as [[Hd1%negb_true_iff Hd2%negb_true_iff]%andb_prop Hinert].
    repeat split; try done. intros _. exists d, w'. split; [done |].
    apply has_char_cons_false in Hdq' as [Hd3 _], Hdollar' as [Hd4 _],
      Hback' as [Hd5 _].
    unfold Shell.escapable_in_double. by rewrite Hd1, Hd2, Hd3, Hd4, Hd5.
  - repeat split; try done.
Qed.

(** Between double quotes everything up to the closing quote joins the
    word; so it does after a backslash that quotes nothing. *)
Lemma split_in_double b rest w : forall u,
  quoted_safe w = true ->
  Shell.split_from Shell.InDouble b (Some u) (w +:+ String Shell.dquote rest) =
    Shell.split_from Shell.Unquoted b (Some (u +:+ w)) rest /\
  (forall d w',
     w = String d w' -> Shell.escapable_in_double d = false ->
     Ascii.eqb d Shell.newline = false ->
     Shell.split_from Shell.InDoubleEscaped b (Some u) (w +:+ String Shell.dquote rest) =
     Shell.split_from Shell.Unquoted b (Some (u +:+ String Shell.backslash w)) rest).
Proof.
  induction w as [|c w IH]; intros u Hsafe.
  - split; [| done]. rewrite append_nil_l, append_nil_r. done.
  - apply quoted_safe_cons in Hsafe as (Hdq & Hex & Hsafe & Hbs).
    rewrite append_cons. split.
    + cbn [Shell.split_from]. rewrite Hdq.
      destruct (Ascii.eqb c Shell.backslash) eqn:Hc.
      * destruct (Hbs eq_refl) as (d & w' & Hw & Hd & Hnl).
        apply Ascii.eqb_eq in Hc as ->.
        exact (proj2 (IH u Hsafe) d w' Hw Hd Hnl).
      * rewrite Hex, put_Some, (proj1 (IH _ Hsafe)). by rewrite append_assoc.
    + intros d w' [= <- <-] Hd Hnl.
      cbn [Shell.split_from]. rewrite Hd, Hnl.
      rewrite !put_Some, (proj1 (IH _ Hsafe)). by rewrite !append_assoc.
Qed.

(** An argument that [quote] puts between double quotes is read back as one
    word. *)
Lemma split_quoted_word a rest :
  quoted_safe a = true ->
  Shell.split_from Shell.Unquoted Shell.NoBrace None
    (dq +:+ a +:+ dq +:+ String " " rest) =
  cons a <$> Shell.split_from Shell.Unquoted Shell.NoBrace None rest.
Proof.
  intros Hsafe. unfold dq at 1. rewrite append_cons, append_nil_l.
  cbn [Shell.split_from].
  change (Shell.is_blank "034") with false.
  change (Shell.is_operator "034") with false.
  change (Shell.is_expansion "034") with false.
  change (Shell.is_glob "034") with false.
  change (Ascii.eqb "034" "#") with false.
  change (Ascii.eqb "034" Shell.backslash) with false.
  change (Ascii.eqb "034" Shell.squote) with false.
  change (Ascii.eqb "034" Shell.dquote) with true.
  cbn [orb andb Shell.begins_word]. cbn match.
  unfold dq. rewrite append_cons, append_nil_l.
  rewrite (proj1 (split_in_double _ _ a _ Hsafe)).
  change (Shell.started None) with "". rewrite append_nil_l.
  cbn [Shell.split_from]. change (Shell.is_blank " ") with true. done.
Qed.

Lemma split_quoted a rest :
  shell_safe a = true ->
  Shell.split_from Shell.Unquoted Shell.NoBrace None (quoted a +:+ rest) =
  cons a <$> Shell.split_from Shell.Unquoted Shell.NoBrace None rest.
Proof.
  unfold shell_safe, quoted. intros [_ Hcase]%andb_prop.
  destruct (has_char " " a).
  - rewrite !append_assoc. change (" " +:+ rest) with (String " " rest).
    by apply split_quoted_word.
  - rewrite append_assoc. change (" " +:+ rest) with (String " " rest).
    by apply split_bare_word.
Qed.

Lemma split_quote_then args : forall rest,
  Forall (fun a => shell_safe a = true) args ->
  Shell.split_from Shell.Unquoted Shell.NoBrace None (quote args +:+ rest) =
  (fun words => args ++ words) <$>
    Shell.split_from Shell.Unquoted Shell.NoBrace None rest.
Proof.
  induction args as [|a args IH]; intros rest Hsafe.
  - rewrite append_nil_l. by destruct (Shell.split_from _ _ _ rest).
  - apply Forall_cons in Hsafe as [Ha Hargs].
    rewrite quote_cons, append_assoc, split_quoted, IH by done.
    by destruct (Shell.split_from _ _ _ rest).
Qed.

(** The quoted line has a NUL character only if an argument has one. *)
Lemma has_NUL_quote args :
  Forall (fun a => shell_safe a = true) args ->
  has_char "000" (quote args) = false.
Proof.
  induction 1 as [|a args Ha Hargs IH]; [done |].
  rewrite quote_cons, has_char_append, IH, orb_false_r.
  unfold shell_safe in Ha. apply andb_prop in Ha as [Hnul%negb_true_iff _].
  unfold quoted. destruct (has_char " " a);
    rewrite !has_char_append, Hnul; reflexivity.
Qed.

(** What the shell examines as the command word of a quoted line. *)
Lemma upto_blank_bare a rest :
  all_chars ordinary a = true ->
  Shell.upto_blank (a +:+ String " " rest) = a.
Proof.
  induction a as [|c a IH]; [done |].
  cbn [all_chars]. intros [Hc Hord]%andb_prop.
  apply ordinary_inv in Hc as (Hbl & _).
  rewrite append_cons. cbn [Shell.upto_blank]. rewrite Hbl. by rewrite IH.
Qed.

Lemma command_word_quote a args :
  shell_safe a = true ->
  Shell.command_word (quote (a :: args)) =
  if has_char " " a
  then Shell.upto_blank (dq +:+ a +:+ dq +:+ " " +:+ quote args)
  else a.
Proof.
  unfold shell_safe. intros [_ Hcase]%andb_prop.
  rewrite quote_cons. unfold quoted. destruct (has_char " " a).
  - by rewrite !append_assoc.
  - rewrite append_assoc. change (" " +:+ quote args) with (String " " (quote args)).
    unfold bare_safe in Hcase. destruct a as [|c a]; [done |].
    apply andb_prop in Hcase as [[_ Hord]%andb_prop _].
    pose proof (upto_blank_bare _ (quote args) Hord) as Hword.
    cbn [all_chars] in Hord. apply andb_prop in Hord as [Hc _].
    apply ordinary_inv in Hc as (Hbl & _).
    rewrite append_cons in *. cbn [Shell.command_word]. by rewrite Hbl.
Qed.

Lemma command_word_accepted args :
  Forall (fun a => shell_safe a = true) args ->
  command_safe args = true ->
  Shell.is_reserved (Shell.command_word (quote args)) ||
  Shell.is_assignment (Shell.command_word (quote args)) = false.
Proof.
  intros Hsafe Hcmd. destruct Hsafe as [|a args Ha Hargs]; [done |].
  rewrite command_word_quote by done. cbn [command_safe] in Hcmd.
  apply andb_prop in Hcmd as [_ Hcmd].
  destruct (has_char " " a).
  - unfold dq. rewrite append_cons. cbn [Shell.upto_blank].
    change (Shell.is_blank "034") with false. cbn match.
    reflexivity.
  - by apply negb_true_iff in Hcmd.
Qed.

Lemma command_safe_names args :
  command_safe args = true -> Shell.names_command args = true.
Proof. destruct args as [|a args]; [done |]. cbn. by intros [? _]%andb_prop. Qed.





(** Other lists with a space in an element that do not come back: a
    backslash or a tab in a bare element, an empty element, a bare element
    that begins a comment, two backslashes between the double quotes. *)
Example quote_round_trip_other_failures :
  Shell.split (quote ["echo"; "a b"; "x\y"]) = Some ["echo"; "a b"; "xy"] /\
  Shell.split (quote ["echo"; "a b"; "x" +:+ String Shell.tab "y"]) =
    Some ["echo"; "a b"; "x"; "y"] /\
  Shell.split (quote ["echo"; "a b"; ""]) = Some ["echo"; "a b"] /\
  Shell.split (quote ["echo"; "a b"; "#c"; "d"]) = Some ["echo"; "a b"] /\
  Shell.split (quote ["echo"; "a \\ b"]) = Some ["echo"; "a \ b"].
Proof. repeat split. Qed.

(** C10. [quote] adds, for each argument in turn, the argument itself, put
    between double quotes exactly when it contains a space, and then one
    space; the characters of the argument are never changed.  So an argument
    with a double quote leaves the shell with an open quote, and an argument
    with a tab and no space is read back as two words. *)
Theorem quote_wraps_only_on_space :
  quote [] = "" /\
  (forall a args,
     quote (a :: args) =
     (if has_char " " a then dq +:+ a +:+ dq else a) +:+ " " +:+ quote args) /\
  (let args := ["a" +:+ dq +:+ "b"] in
   quote args = "a" +:+ dq +:+ "b " /\
   Shell.split (quote args) = None /\
   Shell.split (quote args) <> Some args) /\
  (let args := ["a" +:+ String Shell.tab "b"] in
   has_char " " ("a" +:+ String Shell.tab "b") = false /\
   quote args = "a" +:+ String Shell.tab "b " /\
   Shell.split (quote args) = Some ["a"; "b"] /\
   Shell.split (quote args) <> Some args).
Proof.
  split; [reflexivity |]. split.
  - intros a args. rewrite quote_cons. unfold quoted. by rewrite append_assoc.
  - split; repeat split; discriminate.
Qed.

(** ** The scenarios of the specification, run on the sample host *)


(** Merging [{PATH: "/bin"}] with [{PATH: "/custom", FOO: "1"}]. *)
Example merged_env_example :
  merged_env (sample_host "win32" (fun _ => true) (mkChild 1 [])) (Some 1%nat) boot =
  (Ret 2%nat,
   mkProc
     (heap boot ++ [CObject (mkObject [("PATH", "/custom"); ("FOO", "1")] [])])
     None []).
Proof. reflexivity. Qed.


Lemma Linux_launchInTerminal_not_found_witness :
  Linux.launchInTerminal (sample_host "linux" (fun _ => false) (mkChild 1 []))
    "/home/dev" ["node"; "x.js"] None boot =
  (Ret 2%nat,
   mkProc
     (heap boot ++
      [CPromise (Rejected (TerminalErr (new_TerminalError
         "'/usr/bin/gnome-terminal' not found" (Some 20002))))])
     None [Call_existsSync "/usr/bin/gnome-terminal"]).
Proof.
  apply (Linux_launchInTerminal_not_found
           (sample_host "linux" (fun _ => false) (mkChild 1 []))
           "/home/dev" ["node"; "x.js"] None boot).
  reflexivity.
Defined.




Lemma Mac_launchInTerminal_outcome_witness :
  let host :=
    sample_host "darwin" (fun _ => true)
      (mkChild 4711 [OnStderrData "execution error: "; OnStderrData "no window"; OnExit 1]) in
  exists s1 s2,
    Mac.launchInTerminal host "/tmp" ["node"; "app.js"] (Some 1%nat) boot
      = (Ret 2%nat, s1) /\
    heap s1 !! 2%nat = Some (CPromise Pending) /\
    emit_all host 4%nat s1 = (Ret tt, s2) /\
    heap s2 !! 2%nat =
      Some (CPromise (Rejected (TerminalErr
        (new_TerminalError "execution error: no window" None)))).
Proof.
  intros host.
  apply (Mac_launchInTerminal_outcome
           host "/tmp" ["node"; "app.js"] (Some 1%nat) boot
           (Some (mkObject [("PATH", "/custom"); ("FOO", "1")] []))
           (mkChild 4711
              [OnStderrData "execution error: "; OnStderrData "no window"; OnExit 1])
           [OnStderrData "execution error: "; OnStderrData "no window"] 1 []).
  - cbn. eauto.
  - reflexivity.
  - reflexivity.
  - reflexivity.
Defined.

(** Without error output the message is the generic one. *)
Example Mac_launchInTerminal_generic_message :
  let host := sample_host "darwin" (fun _ => true) (mkChild 4711 [OnExit 3]) in
  (heap ((_ ← Mac.launchInTerminal host "/tmp" ["node"] None;
          emit_all host 4%nat) boot).2) !! 2%nat =
  Some (CPromise (Rejected (TerminalErr
    (new_TerminalError "/usr/bin/osascript failed with exit code 3" None)))).
Proof. reflexivity. Qed.

(** [killTree(1234)] when the termination script cannot be started. *)
Example Default_killTree_spawn_error :
  let host :=
    mkHost "linux" 0%nat "/ext/out/node" sample_join (fun _ m a => format m a)
      (fun _ => true) (fun _ => Ret tt)
      (fun _ _ => Ret (mkSpawnSyncResult (Some (NativeErr "spawnSync ENOENT")) None))
      (fun _ _ _ => Throw (NativeErr "spawn ENOENT")) in
  Default.killTree host 1234 boot =
  (Ret 2%nat,
   mkProc (heap boot ++ [CPromise (Rejected (NativeErr "spawnSync ENOENT"))]) None
     [Call_spawnSync "/ext/out/node/terminateProcess.sh" ["1234"]]).
Proof. reflexivity. Qed.

(** * Further properties of the module *)

(** ** The strategies that settle their promise before they return *)

Lemma Default_launchInTerminal_run host dir args envVars h f lg :
  Default.launchInTerminal host dir args envVars (mkProc h f lg) =
  (Ret (length h),
   mkProc (h ++ [CPromise (Rejected (TerminalErr (Default.not_implemented host)))])
     f lg).
Proof.
  rewrite <- (app_nil_r h) at 1.
  unfold Default.launchInTerminal. unfold_run. heap_steps.
  by rewrite Nat.add_0_r.
Qed.

(** X1. [DefaultTerminalService.launchInTerminal] makes no system call and
    returns a promise that is already rejected with the localized "External
    console not implemented on '{0}'." for [process.platform], without a
    [linkId]; its three arguments play no part. *)
Theorem Default_launchInTerminal_always_rejects host dir args envVars s :
  Default.launchInTerminal host dir args envVars s =
  (Ret (length (heap s)),
   mkProc
     (heap s ++
      [CPromise (Rejected (TerminalErr (new_TerminalError
         (localize host "external.console.not.implemented"
            "External console not implemented on '{0}'." [process_platform host])
         None)))])
     (_terminalService s) (syscalls s)).
Proof. destruct s as [h f lg]. apply Default_launchInTerminal_run. Qed.

Lemma Windows_killTree_run host pid h f lg :
  let cmd := "taskkill /F /T /PID " +:+ pretty pid in
  Windows.killTree host pid (mkProc h f lg) =
  (Ret (length h),
   mkProc
     (h ++ [CPromise match CP_execSync host cmd with
                     | Ret _ => Fulfilled VUndefined
                     | Throw e => Rejected e
                     end])
     f (lg ++ [Call_execSync cmd])).
Proof.
  intros cmd. rewrite <- (app_nil_r h) at 1.
  unfold Windows.killTree. unfold_run. fold cmd. heap_steps.
  destruct (CP_execSync host cmd) as [[]|e]; heap_steps; by rewrite Nat.add_0_r.
Qed.

(** X2. [WindowsTerminalService.killTree(pid)] runs the one command
    [taskkill /F /T /PID <pid>], with the process id in decimal; its promise
    is fulfilled with no value when the command succeeds and rejected with
    the exception of [execSync] when it does not, and is settled either way
    when the call returns. *)
Theorem Windows_killTree_outcome host pid s :
  let cmd := "taskkill /F /T /PID " +:+ pretty pid in
  Windows.killTree host pid s =
  (Ret (length (heap s)),
   mkProc
     (heap s ++ [CPromise match CP_execSync host cmd with
                          | Ret _ => Fulfilled VUndefined
                          | Throw e => Rejected e
                          end])
     (_terminalService s) (syscalls s ++ [Call_execSync cmd])).
Proof. destruct s as [h f lg]. apply Windows_killTree_run. Qed.

(** X3. [WindowsTerminalService.isOnPath(program)] always runs the one
    command [where <program>], the program text inserted as it is, and
    answers whether that command succeeded. *)
Theorem Windows_isOnPath_answer host program s :
  Windows.isOnPath host program s =
  (Ret (is_Ret (CP_execSync host ("where " +:+ program))),
   mkProc (heap s) (_terminalService s)
     (syscalls s ++ [Call_execSync ("where " +:+ program)])).
Proof. destruct s as [h f lg]. apply Windows_isOnPath_run. Qed.

Lemma Default_isOnPath_probes_without_which_witness :
  Default.isOnPath
    (mkHost "freebsd" 0%nat "/ext/out/node" sample_join (fun _ m a => format m a)
       (fun _ => false) (fun _ => Ret tt)
       (fun _ _ => Ret (mkSpawnSyncResult None (Some 0)))
       (fun _ _ _ => Throw (NativeErr "spawn ENOENT")))
    "node" boot =
  (Ret true,
   mkProc (heap boot) None
     [Call_existsSync "/usr/bin/which"; Call_execSync "/usr/bin/which 'node'"]).
Proof.
  apply (Default_isOnPath_probes_without_which
           (mkHost "freebsd" 0%nat "/ext/out/node" sample_join
              (fun _ m a => format m a)
              (fun _ => false) (fun _ => Ret tt)
              (fun _ _ => Ret (mkSpawnSyncResult None (Some 0)))
              (fun _ _ _ => Throw (NativeErr "spawn ENOENT")))
           "node" boot).
  reflexivity.
Defined.

(** ** Cells are never lost and never change kind *)

Lemma heap_evolves_refl h : heap_evolves h h.
Proof. intros l c Hl. eauto. Qed.

Lemma heap_evolves_trans h1 h2 h3 :
  heap_evolves h1 h2 -> heap_evolves h2 h3 -> heap_evolves h1 h3.
Proof.
  intros H12 H23 l c Hl.
  destruct (H12 l c Hl) as (c2 & Hl2 & Hk2).
  destruct (H23 l c2 Hl2) as (c3 & Hl3 & Hk3).
  exists c3. split; [done | congruence].
Qed.

Lemma heap_evolves_app h t : heap_evolves h (h ++ t).
Proof. intros l c Hl. exists c. split; [by apply lookup_app_l_Some | done]. Qed.

Lemma heap_evolves_insert h l c c' :
  h !! l = Some c -> cell_kind c' = cell_kind c -> heap_evolves h (<[l:=c']> h).
Proof.
  intros Hl Hkind l0 c0 Hl0. destruct (decide (l0 = l)) as [->|Hne].
  - exists c'. split; [| congruence].
    apply list_lookup_insert_eq. by eapply lookup_lt_Some.
  - exists c0. split; [| done]. by rewrite list_lookup_insert_ne.
Qed.

Lemma evolves_ret {A} (a : A) : evolves (mret a : Run A).
Proof. intros s. apply heap_evolves_refl. Qed.

Lemma evolves_throw {A} e : evolves (throw e : Run A).
Proof. intros s. apply heap_evolves_refl. Qed.

Lemma evolves_lift {A} (r : Res A) : evolves (lift r).
Proof. intros s. apply heap_evolves_refl. Qed.

Lemma evolves_log_call c : evolves (log_call c).
Proof. intros s. apply heap_evolves_refl. Qed.

Lemma evolves_read l : evolves (read l).
Proof. intros s. unfold read. destruct (heap s !! l); apply heap_evolves_refl. Qed.

Lemma evolves_alloc c : evolves (alloc c).
Proof. intros s. apply heap_evolves_app. Qed.

Lemma evolves_bind {A B} (m : Run A) (k : A -> Run B) :
  evolves m -> (forall a, evolves (k a)) -> evolves (m ≫= k).
Proof.
  intros Hm Hk s. specialize (Hm s). rewrite bind_run.
  destruct (m s) as [[a|e] s1]; cbn [snd] in *; [| done].
  eapply heap_evolves_trans; [done | apply Hk].
Qed.

Lemma evolves_try_catch {A} (m : Run A) (k : JSError -> Run A) :
  evolves m -> (forall e, evolves (k e)) -> evolves (try_catch m k).
Proof.
  intros Hm Hk s. specialize (Hm s). unfold try_catch.
  destruct (m s) as [[a|e] s1]; cbn [snd] in *; [done |].
  eapply heap_evolves_trans; [done | apply Hk].
Qed.

Lemma evolves_for_each {A} (l : list A) (body : A -> Run unit) :
  (forall a, evolves (body a)) -> evolves (for_each l body).
Proof.
  intros Hbody. induction l as [|a l IH]; cbn [for_each].
  - apply evolves_ret.
  - apply evolves_bind; auto.
Qed.

Lemma evolves_settle p st : evolves (settle p st).
Proof.
  intros s. unfold settle. rewrite bind_run. unfold read.
  destruct (heap s !! p) as [c|] eqn:Hp; [| apply heap_evolves_refl].
  destruct c as [| |[]| |]; try apply heap_evolves_refl.
  by apply (heap_evolves_insert _ _ (CPromise Pending)).
Qed.

Lemma evolves_on child name cb : evolves (on child name cb).
Proof.
  intros s. unfold on. rewrite bind_run. unfold read.
  destruct (heap s !! child) as [c|] eqn:Hc; [| apply heap_evolves_refl].
  destruct c; try apply heap_evolves_refl.
  by eapply heap_evolves_insert.
Qed.

Lemma evolves_read_object l : evolves (read_object l).
Proof.
  unfold read_object. apply evolves_bind; [apply evolves_read |].
  intros []; first [apply evolves_ret | apply evolves_throw].
Qed.

Lemma evolves_read_var l : evolves (read_var l).
Proof.
  unfold read_var. apply evolves_bind; [apply evolves_read |].
  intros []; first [apply evolves_ret | apply evolves_throw].
Qed.

Lemma evolves_set_own objectCopy (f : JSObject -> option JSObject) :
  evolves (target ← read_object objectCopy;
           match f target with
           | Some o => write objectCopy (CObject o)
           | None => mret tt
           end).
Proof.
  intros s. rewrite bind_run. unfold read_object. rewrite bind_run. unfold read.
  destruct (heap s !! objectCopy) as [c|] eqn:Hc; [| apply heap_evolves_refl].
  destruct c; try apply heap_evolves_refl.
  rewrite ret_run. destruct (f o); [| apply heap_evolves_refl].
  by eapply heap_evolves_insert.
Qed.

Lemma evolves_extendObject objectCopy object : evolves (extendObject objectCopy object).
Proof.
  unfold extendObject. apply evolves_bind; [| intros; apply evolves_ret].
  unfold for_in. destruct object as [l|]; [| apply evolves_ret].
  apply evolves_bind; [apply evolves_read_object |]. intros o.
  apply evolves_for_each. intros key. unfold extend_body.
  apply evolves_bind; [apply evolves_read_object |]. intros o'.
  apply evolves_bind; [apply evolves_lift |]. intros [|]; [| apply evolves_ret].
  destruct (get_prop o' key) as [v|].
  - apply (evolves_set_own objectCopy (fun target => Some (set_prop target key v))).
  - apply (evolves_set_own objectCopy (fun _ => None)).
Qed.

Lemma evolves_merged_env host envVars : evolves (merged_env host envVars).
Proof.
  unfold merged_env. apply evolves_bind; [apply evolves_alloc |]. intros fresh.
  apply evolves_bind; intros; apply evolves_extendObject.
Qed.

Lemma evolves_spawn host command args options :
  evolves (spawn host command args options).
Proof.
  unfold spawn. apply evolves_bind; [apply evolves_log_call |]. intros _.
  apply evolves_bind; [apply evolves_lift |]. intros proc. apply evolves_alloc.
Qed.

Lemma evolves_execSync host command : evolves (execSync host command).
Proof.
  unfold execSync. apply evolves_bind; [apply evolves_log_call |]. intros _.
  apply evolves_lift.
Qed.

Lemma evolves_existsSync host path : evolves (existsSync host path).
Proof.
  unfold existsSync. apply evolves_bind; [apply evolves_log_call |]. intros _.
  apply evolves_ret.
Qed.

Lemma evolves_spawnSync host command args : evolves (spawnSync host command args).
Proof.
  unfold spawnSync. apply evolves_bind; [apply evolves_log_call |]. intros _.
  apply evolves_lift.
Qed.

Create HintDb evolves discriminated.
#[local] Hint Resolve evolves_ret evolves_throw evolves_lift evolves_log_call
  evolves_read evolves_alloc evolves_settle evolves_on evolves_read_object
  evolves_read_var evolves_extendObject evolves_merged_env evolves_spawn
  evolves_execSync evolves_existsSync evolves_spawnSync : evolves.

Ltac evolves :=
  repeat first
    [ progress eauto with evolves
    | apply evolves_bind
    | apply evolves_try_catch
    | apply evolves_for_each
    | match goal with
      | |- forall _, _ => intro
      | |- evolves (match ?x with _ => _ end) => destruct x
      | |- evolves (if ?x then _ else _) => destruct x
      end ].

(** The executors of the promises the strategies create. *)
Lemma evolves_new_Promise executor :
  (forall p, evolves (executor p)) -> evolves (new_Promise executor).
Proof. intros H. unfold new_Promise, reject. evolves. Qed.

Lemma evolves_launchInTerminal host cls dir args envVars :
  evolves (ITerminalService.launchInTerminal host cls dir args envVars).
Proof.
  destruct cls; cbn [ITerminalService.launchInTerminal];
    apply evolves_new_Promise; intros p; unfold resolve, reject; evolves.
Qed.

Lemma evolves_killTree host cls pid :
  evolves (ITerminalService.killTree host cls pid).
Proof.
  destruct cls; cbn [ITerminalService.killTree];
    apply evolves_new_Promise; intros p; unfold resolve, reject; evolves.
Qed.

Lemma evolves_isOnPath host cls program :
  evolves (ITerminalService.isOnPath host cls program).
Proof.
  destruct cls; cbn [ITerminalService.isOnPath];
    unfold Default.isOnPath, Windows.isOnPath; evolves.
Qed.

Lemma evolves_Mac_on_stderr_data stderr data :
  evolves (Mac.on_stderr_data stderr data).
Proof.
  intros s. unfold Mac.on_stderr_data, read_var. rewrite !bind_run. unfold read.
  destruct (heap s !! stderr) as [c|] eqn:Hc; [| apply heap_evolves_refl].
  destruct c; try apply heap_evolves_refl.
  rewrite ret_run. by eapply heap_evolves_insert.
Qed.

Lemma evolves_call host cb ev : evolves (call host cb ev).
Proof.
  destruct cb, ev; cbn [call];
    unfold Linux.on_exit, Mac.on_exit, resolve, reject;
    first [apply evolves_Mac_on_stderr_data | evolves].
Qed.

Lemma evolves_emit_all host child : evolves (emit_all host child).
Proof. unfold emit_all, emit. evolves. apply evolves_call. Qed.

(** A promise created by [new Promise] is returned, whatever its executor
    does, and is still a promise then. *)
Lemma new_Promise_returns executor s :
  (forall p, evolves (executor p)) ->
  exists s' st,
    new_Promise executor s = (Ret (length (heap s)), s') /\
    heap s' !! length (heap s) = Some (CPromise st).
Proof.
  intros Hex. unfold new_Promise. rewrite bind_run. unfold alloc at 1.
  rewrite bind_run. unfold try_catch.
  set (p := length (heap s)).
  set (s1 := with_heap (heap s ++ [CPromise Pending]) s).
  assert (Hp1 : heap s1 !! p = Some (CPromise Pending)).
  { subst s1 p. cbn [heap with_heap]. by rewrite lookup_app_r, Nat.sub_diag by lia. }
  pose proof (Hex p s1) as Hev.
  destruct (executor p s1) as [[[]|e] s2]; cbn [snd] in Hev.
  - destruct (Hev p _ Hp1) as (c & Hc & Hk).
    destruct c; try discriminate. rewrite ret_run. eauto.
  - pose proof (evolves_settle p (Rejected e) s2) as Hev2.
    destruct (Hev p _ Hp1) as (c & Hc & Hk).
    destruct c; try discriminate.
    destruct (Hev2 p _ Hc) as (c' & Hc' & Hk').
    destruct c'; try discriminate.
    unfold reject. unfold settle in *. rewrite bind_run in *. unfold read in *.
    rewrite Hc in *.
    destruct st; cbn [write fst snd] in *; rewrite ret_run; eauto.
Qed.

Lemma strategy_launchInTerminal_returns host cls dir args envVars s :
  exists s' st,
    ITerminalService.launchInTerminal host cls dir args envVars s =
      (Ret (length (heap s)), s') /\
    heap s' !! length (heap s) = Some (CPromise st).
Proof.
  destruct cls; cbn [ITerminalService.launchInTerminal];
    apply new_Promise_returns; intros p; unfold resolve, reject; evolves.
Qed.

(** X4. On every strategy and every host, whatever the arguments and the
    heap, [launchInTerminal] throws nothing: it returns a new promise (the
    cell it allocates first), and that cell is a promise when the call
    returns. *)
Theorem launchInTerminal_returns_promise host cls dir args envVars s :
  exists s' st,
    ITerminalService.launchInTerminal host cls dir args envVars s =
      (Ret (length (heap s)), s') /\
    heap s' !! length (heap s) = Some (CPromise st).
Proof. apply strategy_launchInTerminal_returns. Qed.

(** X5. On every strategy and every host, [killTree] throws nothing and
    returns a promise that is settled when the call returns: fulfilled with
    no value or rejected, never pending. *)
Theorem killTree_returns_settled_promise host cls pid s :
  exists s' st,
    ITerminalService.killTree host cls pid s = (Ret (length (heap s)), s') /\
    heap s' !! length (heap s) = Some (CPromise st) /\
    (st = Fulfilled VUndefined \/ exists e, st = Rejected e).
Proof.
  destruct s as [h f lg]; cbn [heap].
  assert (Hlast : forall c : Cell, (h ++ [c]) !! length h = Some c).
  { intros c. by rewrite lookup_app_r, Nat.sub_diag by lia. }
  destruct cls; cbn [ITerminalService.killTree];
    rewrite ?Default_killTree_run, ?Windows_killTree_run;
    eexists; eexists; (split; [reflexivity |]); cbn [heap];
    (split; [apply Hlast |]).
  all: try (destruct (spawn_failure _); eauto).
  destruct (CP_execSync _ _); eauto.
Qed.

(** ** The facade and the instance it caches *)

Lemma evolves_terminalService host : evolves (Terminal.terminalService host).
Proof.
  intros s. unfold Terminal.terminalService, Terminal.get_terminalService.
  rewrite bind_run. destruct (_terminalService s); [apply heap_evolves_refl |].
  apply heap_evolves_app.
Qed.

Lemma evolves_class_of inst : evolves (Terminal.class_of inst).
Proof. unfold Terminal.class_of. evolves. Qed.

Lemma class_of_serves host s inst cls :
  serves s inst cls ->
  (i ← Terminal.terminalService host; Terminal.class_of i) s = (Ret cls, s).
Proof.
  intros [Hinst Hcls]. rewrite bind_run, (terminalService_cached _ _ _ Hinst).
  unfold Terminal.class_of. rewrite bind_run. unfold read. by rewrite Hcls.
Qed.

Lemma facade_dispatch {A} host (op : ServiceClass -> Run A) s inst cls :
  serves s inst cls ->
  (i ← Terminal.terminalService host; c ← Terminal.class_of i; op c) s = op cls s.
Proof.
  intros [Hinst Hcls]. rewrite bind_run, (terminalService_cached _ _ _ Hinst).
  rewrite bind_run. unfold Terminal.class_of. rewrite bind_run. unfold read.
  by rewrite Hcls.
Qed.

Lemma facade_first {A} host (op : ServiceClass -> Run A) s :
  _terminalService s = None ->
  let cls := Terminal.select (process_platform host) in
  let s1 := mkProc (heap s ++ [CService cls]) (Some (length (heap s))) (syscalls s) in
  serves s1 (length (heap s)) cls /\
  (i ← Terminal.terminalService host; c ← Terminal.class_of i; op c) s = op cls s1.
Proof.
  intros Hnone cls s1. destruct s as [h f lg].
  cbn [heap _terminalService syscalls] in *. subst f. split.
  - split; [done |]. subst s1. cbn [heap].
    by rewrite lookup_app_r, Nat.sub_diag by lia.
  - rewrite bind_run, terminalService_first. fold cls.
    rewrite bind_run. unfold Terminal.class_of. rewrite bind_run, read_app0.
    done.
Qed.

Lemma serves_after {A} (m : Run A) s inst cls :
  keeps_service m -> evolves m -> serves s inst cls -> serves (m s).2 inst cls.
Proof.
  intros Hkeep Hev [Hinst Hcls]. split; [by rewrite Hkeep |].
  destruct (Hev s inst _ Hcls) as (c & Hc & Hk).
  destruct c; try discriminate. cbn in Hk. congruence.
Qed.

(** C3. The class instantiated is a function of [process.platform] alone:
    ['win32'] gives the Windows strategy, ['darwin'] the macOS one, ['linux']
    the Linux one, anything else the Default one.  Nothing is created before
    the first use: with [Terminal._terminalService] unset, a call of
    [terminalService] creates one instance of that class and stores it, and
    each operation of the facade does so and then is the method of that
    class, run on the state that holds the new instance.  Every later call of
    [terminalService] returns the stored instance and leaves the state
    alone; the operations of the facade never replace it; and with an
    instance of a class stored, each operation of the facade is the method
    of that class on the same state, after which the same instance of the
    same class is still stored. *)
Theorem terminalService_selects_once_and_caches host s :
  let platform := process_platform host in
  let inst := length (heap s) in
  exists cls,
    (platform = "win32" -> cls = WindowsTerminalService) /\
    (platform = "darwin" -> cls = MacTerminalService) /\
    (platform = "linux" -> cls = LinuxTerminalService) /\
    (platform <> "win32" -> platform <> "darwin" -> platform <> "linux" ->
     cls = DefaultTerminalService) /\
    (_terminalService s = None ->
     let s1 := mkProc (heap s ++ [CService cls]) (Some inst) (syscalls s) in
     Terminal.terminalService host s = (Ret inst, s1) /\
     serves s1 inst cls /\
     (forall dir args envVars,
        Terminal.launchInTerminal host dir args envVars s =
        ITerminalService.launchInTerminal host cls dir args envVars s1) /\
     (forall processId,
        Terminal.killTree host processId s =
        ITerminalService.killTree host cls processId s1) /\
     (forall program,
        Terminal.isOnPath host program s =
        ITerminalService.isOnPath host cls program s1)) /\
    (forall s' i,
       _terminalService s' = Some i ->
       Terminal.terminalService host s' = (Ret i, s') /\
       (forall dir args envVars,
          _terminalService (Terminal.launchInTerminal host dir args envVars s').2
          = Some i) /\
       (forall processId,
          _terminalService (Terminal.killTree host processId s').2 = Some i) /\
       (forall program,
          _terminalService (Terminal.isOnPath host program s').2 = Some i)) /\
    (forall s' i c,
       serves s' i c ->
       (forall dir args envVars,
          Terminal.launchInTerminal host dir args envVars s' =
            ITerminalService.launchInTerminal host c dir args envVars s' /\
          serves (Terminal.launchInTerminal host dir args envVars s').2 i c) /\
       (forall processId,
          Terminal.killTree host processId s' =
            ITerminalService.killTree host c processId s' /\
          serves (Terminal.killTree host processId s').2 i c) /\
       (forall program,
          Terminal.isOnPath host program s' =
            ITerminalService.isOnPath host c program s' /\
          serves (Terminal.isOnPath host program s').2 i c)).
Proof.
  intros platform inst. exists (Terminal.select platform).
  split; [unfold Terminal.select; by intros -> |].
  split; [unfold Terminal.select; by intros -> |].
  split; [unfold Terminal.select; by intros -> |].
  split.
  { intros H1 H2 H3. unfold Terminal.select.
    apply String.eqb_neq in H1, H2, H3. by rewrite H1, H2, H3. }
  split; [| split].
  - intros Hnone s1. split; [| split; [| split; [| split]]].
    + destruct s as [h f lg]; cbn [heap _terminalService syscalls] in *.
      subst f. apply terminalService_first.
    + apply (facade_first host (fun _ => mret tt : Run unit) s Hnone).
    + intros dir args envVars.
      apply (facade_first host
               (fun c => ITerminalService.launchInTerminal host c dir args envVars)
               s Hnone).
    + intros processId.
      apply (facade_first host
               (fun c => ITerminalService.killTree host c processId) s Hnone).
    + intros program.
      apply (facade_first host
               (fun c => ITerminalService.isOnPath host c program) s Hnone).
  - intros s' i Hi. split; [by apply terminalService_cached |].
    split; [| split].
    + intros dir args envVars.
      apply (facade_keeps_instance host
               (fun cls => ITerminalService.launchInTerminal host cls dir args envVars));
        [| done].
      intros cls. apply keeps_strategy_launchInTerminal.
    + intros processId.
      apply (facade_keeps_instance host
               (fun cls => ITerminalService.killTree host cls processId)); [| done].
      intros cls. apply keeps_strategy_killTree.
    + intros program.
      apply (facade_keeps_instance host
               (fun cls => ITerminalService.isOnPath host cls program)); [| done].
      intros cls. apply keeps_strategy_isOnPath.
  - intros s' i c Hs.
    assert (Hall : forall {A} (op : ServiceClass -> Run A),
      (forall c, keeps_service (op c)) -> (forall c, evolves (op c)) ->
      (j ← Terminal.terminalService host; k ← Terminal.class_of j; op k) s' = op c s' /\
      serves ((j ← Terminal.terminalService host; k ← Terminal.class_of j; op k) s').2
        i c).
    { intros A op Hkeep Hev.
      rewrite (facade_dispatch host op s' i c Hs). split; [done |].
      by apply serves_after. }
    split; [| split].
    + intros dir args envVars.
      apply (Hall _ (fun k => ITerminalService.launchInTerminal host k dir args envVars)).
      * intros k. apply keeps_strategy_launchInTerminal.
      * intros k. apply evolves_launchInTerminal.
    + intros processId.
      apply (Hall _ (fun k => ITerminalService.killTree host k processId)).
      * intros k. apply keeps_strategy_killTree.
      * intros k. apply evolves_killTree.
    + intros program.
      apply (Hall _ (fun k => ITerminalService.isOnPath host k program)).
      * intros k. apply keeps_strategy_isOnPath.
      * intros k. apply evolves_isOnPath.
Qed.

(** X6. Once [Terminal._terminalService] holds an instance, each operation
    of the facade is the method of that instance's class, run on the same
    state: the facade adds nothing and allocates nothing. *)
Theorem Terminal_dispatches_to_cached_instance host s inst cls :
  serves s inst cls ->
  (forall dir args envVars,
     Terminal.launchInTerminal host dir args envVars s =
     ITerminalService.launchInTerminal host cls dir args envVars s) /\
  (forall processId,
     Terminal.killTree host processId s =
     ITerminalService.killTree host cls processId s) /\
  (forall program,
     Terminal.isOnPath host program s =
     ITerminalService.isOnPath host cls program s).
Proof.
  intros Hs. split; [| split].
  - intros dir args envVars.
    apply (facade_dispatch host
             (fun c => ITerminalService.launchInTerminal host c dir args envVars)
             s inst cls Hs).
  - intros processId.
    apply (facade_dispatch host
             (fun c => ITerminalService.killTree host c processId) s inst cls Hs).
  - intros program.
    apply (facade_dispatch host
             (fun c => ITerminalService.isOnPath host c program) s inst cls Hs).
Qed.

Lemma Terminal_dispatches_to_cached_instance_witness :
  let host := sample_host "win32" (fun _ => true) (mkChild 1 []) in
  let s := mkProc (heap boot ++ [CService WindowsTerminalService]) (Some 2%nat) [] in
  Terminal.isOnPath host "node" s = Windows.isOnPath host "node" s.
Proof.
  intros host s.
  assert (Hs : serves s 2%nat WindowsTerminalService) by (split; reflexivity).
  exact (proj2 (proj2 (Terminal_dispatches_to_cached_instance
                         host s 2%nat WindowsTerminalService Hs)) "node").
Defined.

(** X7. The cached instance is permanent.  When the facade holds an instance
    of a class, then after [launchInTerminal], [killTree] or [isOnPath],
    whatever they were given and however they ended, it holds the same
    instance and that instance is of the same class; and a first operation,
    run when nothing is cached, leaves cached an instance of the class
    selected for [process.platform]. *)
Theorem Terminal_keeps_its_instance host s inst cls :
  serves s inst cls \/
  (_terminalService s = None /\ inst = length (heap s) /\
   cls = Terminal.select (process_platform host)) ->
  (forall dir args envVars,
     serves (Terminal.launchInTerminal host dir args envVars s).2 inst cls) /\
  (forall processId, serves (Terminal.killTree host processId s).2 inst cls) /\
  (forall program, serves (Terminal.isOnPath host program s).2 inst cls).
Proof.
  intros Hs.
  assert (Hall : forall {A} (op : ServiceClass -> Run A),
    (forall c, keeps_service (op c)) -> (forall c, evolves (op c)) ->
    serves ((i ← Terminal.terminalService host; c ← Terminal.class_of i; op c) s).2
      inst cls).
  { intros A op Hkeep Hev. destruct Hs as [Hs | (Hnone & -> & ->)].
    - rewrite (facade_dispatch host op s inst cls Hs). by apply serves_after.
    - destruct (facade_first host op s Hnone) as [Hs1 ->]. by apply serves_after. }
  split; [| split].
  - intros dir args envVars.
    apply (Hall _ (fun c => ITerminalService.launchInTerminal host c dir args envVars)).
    + intros c. apply keeps_strategy_launchInTerminal.
    + intros c. apply evolves_launchInTerminal.
  - intros processId.
    apply (Hall _ (fun c => ITerminalService.killTree host c processId)).
    + intros c. apply keeps_strategy_killTree.
    + intros c. apply evolves_killTree.
  - intros program.
    apply (Hall _ (fun c => ITerminalService.isOnPath host c program)).
    + intros c. apply keeps_strategy_isOnPath.
    + intros c. apply evolves_isOnPath.
Qed.

Lemma Terminal_keeps_its_instance_witness :
  let host := sample_host "linux" (fun _ => false) (mkChild 1 []) in
  serves (Terminal.launchInTerminal host "/tmp" ["node"] None boot).2
    2%nat LinuxTerminalService.
Proof.
  intros host.
  assert (Hfirst :
    serves boot 2%nat LinuxTerminalService \/
    (_terminalService boot = None /\ 2%nat = length (heap boot) /\
     LinuxTerminalService = Terminal.select (process_platform host)))
    by (right; repeat split).
  exact (proj1 (Terminal_keeps_its_instance host boot 2%nat LinuxTerminalService
                  Hfirst) "/tmp" ["node"] None).
Defined.

(** X8. On a platform other than ['win32'], ['darwin'] and ['linux'], the
    first [Terminal.launchInTerminal] creates the Default strategy and
    returns a promise already rejected with the "not implemented" error, and
    no system call is made. *)
Theorem Terminal_launchInTerminal_unsupported host dir args envVars s :
  _terminalService s = None ->
  process_platform host <> "win32" ->
  process_platform host <> "darwin" ->
  process_platform host <> "linux" ->
  Terminal.launchInTerminal host dir args envVars s =
  (Ret (S (length (heap s))),
   mkProc
     (heap s ++
      [CService DefaultTerminalService;
       CPromise (Rejected (TerminalErr (Default.not_implemented host)))])
     (Some (length (heap s))) (syscalls s)).
Proof.
  intros Hnone H1 H2 H3.
  destruct (facade_first host
              (fun c => ITerminalService.launchInTerminal host c dir args envVars)
              s Hnone) as [_ Hrun].
  unfold Terminal.launchInTerminal. rewrite Hrun.
  unfold Terminal.select.
  apply String.eqb_neq in H1, H2, H3. rewrite H1, H2, H3.
  cbn [ITerminalService.launchInTerminal].
  rewrite Default_launchInTerminal_run.
  by rewrite length_app, <- app_assoc, Nat.add_comm.
Qed.

Lemma Terminal_launchInTerminal_unsupported_witness :
  Terminal.launchInTerminal (sample_host "freebsd" (fun _ => true) (mkChild 1 []))
    "/tmp" ["node"; "app.js"] None boot =
  (Ret 3%nat,
   mkProc
     (heap boot ++
      [CService DefaultTerminalService;
       CPromise (Rejected (TerminalErr (new_TerminalError
         "External console not implemented on 'freebsd'." None)))])
     (Some 2%nat) []).
Proof.
  apply (Terminal_launchInTerminal_unsupported
           (sample_host "freebsd" (fun _ => true) (mkChild 1 []))
           "/tmp" ["node"; "app.js"] None boot);
    [reflexivity | discriminate..].
Defined.

(** X9. The first [Terminal.killTree(pid)] makes exactly one system call,
    chosen by the platform: on ['win32'] the command
    [taskkill /F /T /PID <pid>], on every other platform, ['darwin'] and
    ['linux'] included, the script [terminateProcess.sh] next to the module
    with the process id as its only argument. *)
Theorem Terminal_killTree_by_platform host pid s :
  _terminalService s = None ->
  syscalls (Terminal.killTree host pid s).2 =
  syscalls s ++
  [if String.eqb (process_platform host) "win32"
   then Call_execSync ("taskkill /F /T /PID " +:+ pretty pid)
   else Call_spawnSync (Path_join host (__dirname host) "./terminateProcess.sh")
          [pretty pid]].
Proof.
  intros Hnone.
  destruct (facade_first host (fun c => ITerminalService.killTree host c pid) s Hnone)
    as [_ Hrun].
  unfold Terminal.killTree. rewrite Hrun. unfold Terminal.select.
  destruct (String.eqb (process_platform host) "win32").
  - cbn [ITerminalService.killTree]. by rewrite Windows_killTree_run.
  - destruct (String.eqb (process_platform host) "darwin");
      [| destruct (String.eqb (process_platform host) "linux")];
      cbn [ITerminalService.killTree]; by rewrite Default_killTree_run.
Qed.

Lemma Terminal_killTree_by_platform_witness :
  syscalls (Terminal.killTree (sample_host "darwin" (fun _ => true) (mkChild 1 []))
              1234 boot).2 =
  [Call_spawnSync "/ext/out/node/terminateProcess.sh" ["1234"]].
Proof.
  apply (Terminal_killTree_by_platform
           (sample_host "darwin" (fun _ => true) (mkChild 1 [])) 1234 boot).
  reflexivity.
Defined.

(** ** The cells that exist before a call are not touched *)

Section Frames.
Context (n : nat).

Lemma frames_ret {A} (a : A) (post : A -> Prop) :
  post a -> frames n (mret a : Run A) post.
Proof. intros Hpost s Hn. repeat split; [done |]. intros a' [= <-]. done. Qed.

Lemma frames_throw {A} e (post : A -> Prop) : frames n (throw e : Run A) post.
Proof. intros s Hn. repeat split; [done |]. intros a' [=]. Qed.

Lemma frames_lift {A} (r : Res A) : frames n (lift r) (fun _ => True).
Proof. intros s Hn. repeat split; done. Qed.

Lemma frames_log_call c : frames n (log_call c) (fun _ => True).
Proof. intros s Hn. repeat split; done. Qed.

Lemma frames_read l : frames n (read l) (fun _ => True).
Proof. intros s Hn. unfold read. destruct (heap s !! l); repeat split; done. Qed.

Lemma frames_alloc c : frames n (alloc c) (fun l => (n <= l)%nat).
Proof.
  intros s Hn. unfold alloc; cbn [fst snd heap with_heap]. split; [| split].
  - by rewrite take_app_le.
  - rewrite length_app. lia.
  - by intros a [= <-].
Qed.

Lemma frames_write l c : (n <= l)%nat -> frames n (write l c) (fun _ => True).
Proof.
  intros Hl s Hn. unfold write; cbn [fst snd heap with_heap]. split; [| split].
  - by rewrite take_insert_ge.
  - by rewrite length_insert.
  - done.
Qed.

Lemma frames_bind {A B} (m : Run A) (k : A -> Run B) mid post :
  frames n m mid -> (forall a, mid a -> frames n (k a) post) ->
  frames n (m ≫= k) post.
Proof.
  intros Hm Hk s Hn. destruct (Hm s Hn) as (Htake & Hlen & Hmid).
  rewrite bind_run. destruct (m s) as [[a|e] s1]; cbn [fst snd] in *.
  - destruct (Hk a (Hmid a eq_refl) s1 Hlen) as (Htake' & Hlen' & Hpost).
    split; [congruence | done].
  - repeat split; [done.. |]. intros a [=].
Qed.

Lemma frames_try_catch {A} (m : Run A) (k : JSError -> Run A) post :
  frames n m post -> (forall e, frames n (k e) post) ->
  frames n (try_catch m k) post.
Proof.
  intros Hm Hk s Hn. destruct (Hm s Hn) as (Htake & Hlen & Hpost).
  unfold try_catch. destruct (m s) as [[a|e] s1]; cbn [fst snd] in *; [done |].
  destruct (Hk e s1 Hlen) as (Htake' & Hlen' & Hpost').
  split; [congruence | done].
Qed.

Lemma frames_weaken {A} (m : Run A) (post post' : A -> Prop) :
  frames n m post -> (forall a, post a -> post' a) -> frames n m post'.
Proof.
  intros Hm Himp s Hn. destruct (Hm s Hn) as (Htake & Hlen & Hpost).
  repeat split; auto.
Qed.

Lemma frames_for_each {A} (l : list A) (body : A -> Run unit) :
  (forall a, frames n (body a) (fun _ => True)) ->
  frames n (for_each l body) (fun _ => True).
Proof.
  intros Hbody. induction l as [|a l IH]; cbn [for_each].
  - by apply frames_ret.
  - eapply frames_bind; [apply Hbody | by intros].
Qed.
End Frames.

Ltac frames_step :=
  lazymatch goal with
  | |- forall _, _ => intro
  | |- frames _ (mret _) _ => apply frames_ret; cbv beta in *; first [done | lia]
  | |- frames _ (throw _) _ => apply frames_throw
  | |- frames _ (lift _) _ => apply frames_lift
  | |- frames _ (log_call _) _ => apply frames_log_call
  | |- frames _ (read _) _ => apply frames_read
  | |- frames _ (alloc _) _ => apply frames_alloc
  | |- frames _ (write _ _) _ => apply frames_write; cbv beta in *; lia
  | |- frames _ (_ ≫= _) _ => eapply frames_bind
  | |- frames _ (try_catch _ _) _ => apply frames_try_catch
  | |- frames _ (for_each _ _) _ => apply frames_for_each
  | |- frames _ (match ?x with _ => _ end) ?post =>
      tryif is_evar post then unify post (fun _ : _ => True) else idtac;
      destruct x
  end.

Ltac frames := repeat frames_step.

Lemma frames_settle n p st :
  (n <= p)%nat -> frames n (settle p st) (fun _ => True).
Proof. intros Hp. unfold settle. frames. Qed.

Lemma frames_read_object n l : frames n (read_object l) (fun _ => True).
Proof. unfold read_object. frames. Qed.

Lemma frames_read_var n l : frames n (read_var l) (fun _ => True).
Proof. unfold read_var. frames. Qed.

Lemma frames_on n child name cb :
  (n <= child)%nat -> frames n (on child name cb) (fun _ => True).
Proof. intros Hc. unfold on. frames. Qed.

Lemma frames_extendObject n objectCopy object :
  (n <= objectCopy)%nat ->
  frames n (extendObject objectCopy object) (fun l => (n <= l)%nat).
Proof.
  intros Hc. unfold extendObject, for_in.
  eapply frames_bind with (mid := fun _ => True); [| frames].
  destruct object as [l|]; [| frames].
  eapply frames_bind; [apply frames_read_object |]. intros o _.
  apply frames_for_each. intros key. unfold extend_body.
  eapply frames_bind; [apply frames_read_object |]. intros o' _.
  eapply frames_bind; [apply frames_lift |]. intros [|] _; [| frames].
  eapply frames_bind; [apply frames_read_object |]. intros target _.
  frames.
Qed.

Lemma frames_merged_env n host envVars :
  frames n (merged_env host envVars) (fun l => (n <= l)%nat).
Proof.
  unfold merged_env.
  eapply frames_bind; [apply frames_alloc |]. intros fresh Hfresh.
  eapply frames_bind; [by apply frames_extendObject |]. intros copy Hcopy.
  by apply frames_extendObject.
Qed.

Lemma frames_spawn n host command args options :
  frames n (spawn host command args options) (fun l => (n <= l)%nat).
Proof. unfold spawn. frames. Qed.

Lemma frames_execSync n host command :
  frames n (execSync host command) (fun _ => True).
Proof. unfold execSync. frames. Qed.

Lemma frames_existsSync n host path :
  frames n (existsSync host path) (fun _ => True).
Proof. unfold existsSync. frames. Qed.

Lemma frames_spawnSync n host command args :
  frames n (spawnSync host command args) (fun _ => True).
Proof. unfold spawnSync. frames. Qed.

Lemma frames_new_Promise n executor :
  (forall p, (n <= p)%nat -> frames n (executor p) (fun _ => True)) ->
  frames n (new_Promise executor) (fun p => (n <= p)%nat).
Proof.
  intros Hex. unfold new_Promise.
  eapply frames_bind; [apply frames_alloc |]. intros p Hp.
  eapply frames_bind with (mid := fun _ => True); [| frames].
  apply frames_try_catch; [by apply Hex |].
  intros e. by apply frames_settle.
Qed.

Lemma frames_launchInTerminal n host cls dir args envVars :
  frames n (ITerminalService.launchInTerminal host cls dir args envVars)
    (fun p => (n <= p)%nat).
Proof.
  destruct cls; cbn [ITerminalService.launchInTerminal];
    apply frames_new_Promise; intros p Hp.
  - by apply frames_settle.
  - eapply frames_bind; [apply frames_merged_env |]. intros env Henv.
    eapply frames_bind; [apply frames_spawn |]. intros cmd Hcmd.
    eapply frames_bind; [by apply frames_on |]. intros _ _.
    by apply frames_settle.
  - eapply frames_bind; [apply frames_existsSync |]. intros present _.
    destruct (negb present); [by apply frames_settle |].
    eapply frames_bind; [apply frames_merged_env |]. intros env Henv.
    eapply frames_bind; [apply frames_spawn |]. intros cmd Hcmd.
    eapply frames_bind; [by apply frames_on |]. intros _ _.
    by apply frames_on.
  - eapply frames_bind with (mid := fun _ => True).
    { destruct envVars; [| by apply frames_ret].
      eapply frames_bind; [apply frames_read_object |]. intros o _.
      by apply frames_ret. }
    intros vars _.
    eapply frames_bind; [apply frames_alloc |]. intros stderr Hstderr.
    eapply frames_bind; [apply frames_spawn |]. intros osa Hosa.
    eapply frames_bind; [by apply frames_on |]. intros _ _.
    eapply frames_bind; [by apply frames_on |]. intros _ _.
    by apply frames_on.
Qed.

(** X10. On every strategy and every host, and however it ends,
    [launchInTerminal] changes no cell that existed when it was called: the
    heap afterwards is the heap before followed by the cells the call
    allocated (its promise among them).  In particular [process.env] and the
    [envVars] object of the caller are only read, and
    [Terminal._terminalService] is not assigned. *)
Theorem launchInTerminal_only_allocates host cls dir args envVars s :
  exists cells,
    heap (ITerminalService.launchInTerminal host cls dir args envVars s).2 =
      heap s ++ cells /\
    cells <> [] /\
    _terminalService (ITerminalService.launchInTerminal host cls dir args envVars s).2 =
      _terminalService s.
Proof.
  destruct (frames_launchInTerminal (length (heap s)) host cls dir args envVars s)
    as (Htake & _ & _); [done |].
  destruct (strategy_launchInTerminal_returns host cls dir args envVars s)
    as (s' & st & Hrun & Hp).
  rewrite keeps_strategy_launchInTerminal.
  rewrite Hrun in *. cbn [snd] in *.
  rewrite firstn_all in Htake.
  exists (drop (length (heap s)) (heap s')).
  split; [by rewrite <- Htake at 1; rewrite take_drop |]. split; [| done].
  intros Hnil. apply lookup_lt_Some in Hp.
  assert (Hlen : length (heap s') = length (heap s)).
  { rewrite <- (take_drop (length (heap s)) (heap s')), Hnil, app_nil_r.
    by rewrite Htake. }
  lia.
Qed.

(** ** Linux strategy: the emulator is there *)

Lemma Linux_launchInTerminal_run host dir args envVars h f lg ambient override proc :
  let p := length h in
  let options := Some (mkOptions dir (S p) false) in
  FS_existsSync host "/usr/bin/gnome-terminal" = true ->
  h !! process_env host = Some (CObject ambient) ->
  env_object h envVars override ->
  finds_builtin ambient ->
  from_option finds_builtin True override ->
  CP_spawn host "/usr/bin/gnome-terminal" (Linux.termArgs host args) options
    = Ret proc ->
  Linux.launchInTerminal host dir args envVars (mkProc h f lg) =
  (Ret p,
   Linux_state h f
     (lg ++ [Call_existsSync "/usr/bin/gnome-terminal";
             Call_spawn "/usr/bin/gnome-terminal" (Linux.termArgs host args) options])
     (mkObject (merged_props ambient override) []) proc Pending).
Proof.
  intros p options Hterm Hamb Hvars Hma Hmo Hspawn. rewrite <- (app_nil_r h) at 1.
  unfold Linux.launchInTerminal, new_Promise, Linux.LINUX_TERM.
  rewrite bind_run, alloc_app. cbn [length app].
  rewrite bind_run. unfold try_catch.
  rewrite bind_run. unfold existsSync.
  rewrite bind_run, log_call_eq, ret_run, Hterm. cbn [negb].
  rewrite bind_run, (merged_env_app host _ _ _ _ _ _ _ Hamb Hvars Hma Hmo).
  cbn [length app]. rewrite bind_run. unfold spawn.
  rewrite bind_run, log_call_eq, bind_run. unfold lift.
  replace (length h + 1)%nat with (S p) by (subst p; lia).
  fold options. rewrite Hspawn.
  unfold_run. heap_steps.
  subst p. rewrite !Nat.add_0_r, <- !app_assoc.
  unfold Linux_state, Linux_listeners. done.
Qed.

(** X11. When [/usr/bin/gnome-terminal] exists, neither [process.env] nor
    [envVars] has a property named [hasOwnProperty], and [CP.spawn] returns
    a child, [LinuxTerminalService.launchInTerminal] tests the file, then
    spawns it with the six arguments below (the title between double quotes,
    and the quoted command followed by the pause, between two pairs of single
    quotes), in [dir] and with the merged environment; the promise it returns
    is still pending, and the child has an ['error'] and an ['exit']
    listener. *)
Theorem Linux_launchInTerminal_spawns host dir args envVars s ambient override proc :
  let p := length (heap s) in
  let argv :=
    ["--title";
     dq +:+ localize host "console.title" "VS Code Console" [] +:+ dq;
     "-x"; "bash"; "-c";
     "''" +:+
       (quote args +:+ "; echo; read -p " +:+ dq +:+
        localize host "press.any.key" "Press any key to continue..." [] +:+ dq +:+
        " -n1;") +:+ "''"] in
  let options := Some (mkOptions dir (S p) false) in
  FS_existsSync host "/usr/bin/gnome-terminal" = true ->
  heap s !! process_env host = Some (CObject ambient) ->
  env_object (heap s) envVars override ->
  finds_builtin ambient ->
  from_option finds_builtin True override ->
  CP_spawn host "/usr/bin/gnome-terminal" argv options = Ret proc ->
  Linux.launchInTerminal host dir args envVars s =
  (Ret p,
   mkProc
     (heap s ++
      [CPromise Pending;
       CObject (mkObject (merged_props ambient override) []);
       CChild proc [(ev_error, cb_reject p); (ev_exit, cb_Linux_exit p)]])
     (_terminalService s)
     (syscalls s ++
      [Call_existsSync "/usr/bin/gnome-terminal";
       Call_spawn "/usr/bin/gnome-terminal" argv options])).
Proof.
  intros p argv options Hterm Hamb Hvars Hma Hmo Hspawn.
  destruct s as [h f lg]; cbn [heap _terminalService syscalls] in *.
  by apply (Linux_launchInTerminal_run host dir args envVars h f lg ambient override).
Qed.

Section LinuxEvents.
Context (host : Host) (h : list Cell) (f : option loc) (lg : list SysCall).
Context (merged : JSObject) (proc : ChildProcess).

Lemma Linux_emit ev st :
  emit host (S (S (length h))) ev (Linux_state h f lg merged proc st) =
  (Ret tt, Linux_state h f lg merged proc (Linux_step host st ev)).
Proof.
  unfold Linux_state, Linux_listeners. canon h.
  unfold emit. rewrite bind_run, read_app. cbn [lookup list_lookup for_each fst snd].
  destruct ev as [err|data|code|signal];
    cbn [event_name EventName_eqb call]; unfold Linux.on_exit.
  - unfold_run. heap_steps. destruct st; heap_steps; done.
  - destruct st; done.
  - destruct code as [|c|c]; cbn [code_text]; unfold Linux.failed;
      unfold_run; heap_steps; destruct st; heap_steps; done.
  - cbn [code_text]. unfold_run. heap_steps. destruct st; heap_steps; done.
Qed.

Lemma Linux_emit_events evs : forall st,
  for_each evs (emit host (S (S (length h)))) (Linux_state h f lg merged proc st) =
  (Ret tt, Linux_state h f lg merged proc (fold_left (Linux_step host) evs st)).
Proof.
  induction evs as [|ev evs IH]; intros st; cbn [for_each fold_left]; [done |].
  by rewrite bind_run, Linux_emit, IH.
Qed.

Lemma Linux_emit_all st :
  emit_all host (S (S (length h))) (Linux_state h f lg merged proc st) =
  (Ret tt,
   Linux_state h f lg merged proc (fold_left (Linux_step host) (events proc) st)).
Proof.
  unfold emit_all. rewrite bind_run.
  unfold Linux_state at 1. canon h. rewrite read_app. cbn [lookup list_lookup].
  replace (length h + 2)%nat with (S (S (length h))) by lia.
  apply Linux_emit_events.
Qed.
End LinuxEvents.

Lemma Linux_step_data host evs :
  forallb is_stderr_data evs = true ->
  fold_left (Linux_step host) evs Pending = Pending.
Proof.
  induction evs as [|ev evs IH]; cbn [fold_left forallb]; [done |].
  intros [Hev Hevs]%andb_prop. destruct ev; try discriminate. by apply IH.
Qed.

Lemma Linux_step_settled host evs : forall st,
  st <> Pending -> fold_left (Linux_step host) evs st = st.
Proof.
  induction evs as [|ev evs IH]; intros st Hst; cbn [fold_left]; [done |].
  destruct st; try done; by rewrite IH.
Qed.

Lemma Linux_state_promise h f lg merged proc st :
  heap (Linux_state h f lg merged proc st) !! length h = Some (CPromise st).
Proof.
  unfold Linux_state; cbn [heap]. by rewrite lookup_app_r, Nat.sub_diag by lia.
Qed.

(** X12. After a successful spawn on Linux (the emulator exists, and neither
    [process.env] nor [envVars] has a property named [hasOwnProperty]), the
    promise is settled by the first ['error'] or ['exit'] event of the
    launcher, and by nothing else: an ['error'] rejects with its error; an
    exit with code 0 fulfils with no value (not with the child); any other
    exit rejects with a [TerminalError] without [linkId] whose message is
    the localized "{0} failed with exit code {1}" for the emulator and the
    code, which is [null] when a signal ended the launcher.  What the
    launcher writes to its error stream before is ignored, and so is every
    later event. *)
Theorem Linux_launchInTerminal_outcome
    host dir args envVars s ambient override proc pre ev post :
  let p := length (heap s) in
  let cmd := S (S p) in
  FS_existsSync host "/usr/bin/gnome-terminal" = true ->
  heap s !! process_env host = Some (CObject ambient) ->
  env_object (heap s) envVars override ->
  finds_builtin ambient ->
  from_option finds_builtin True override ->
  CP_spawn host "/usr/bin/gnome-terminal" (Linux.termArgs host args)
    (Some (mkOptions dir (S p) false)) = Ret proc ->
  events proc = pre ++ ev :: post ->
  forallb is_stderr_data pre = true ->
  is_stderr_data ev = false ->
  exists s1 s2,
    Linux.launchInTerminal host dir args envVars s = (Ret p, s1) /\
    emit_all host cmd s1 = (Ret tt, s2) /\
    heap s2 !! p = Some (CPromise
      match ev with
      | OnError err => Rejected err
      | OnExit code =>
          if code =? 0 then Fulfilled VUndefined
          else Rejected (TerminalErr (new_TerminalError
                 (localize host "program.failed" "{0} failed with exit code {1}"
                    ["/usr/bin/gnome-terminal"; pretty code])
                 None))
      | OnExitSignal _ =>
          Rejected (TerminalErr (new_TerminalError
            (localize host "program.failed" "{0} failed with exit code {1}"
               ["/usr/bin/gnome-terminal"; "null"])
            None))
      | OnStderrData _ => Pending
      end).
Proof.
  intros p cmd Hterm Hamb Hvars Hma Hmo Hspawn Hevents Hpre Hev.
  destruct s as [h f lg]; cbn [heap _terminalService syscalls] in *.
  eexists; eexists. split; [| split].
  - by apply (Linux_launchInTerminal_run host dir args envVars h f lg ambient override).
  - apply Linux_emit_all.
  - subst p. rewrite Linux_state_promise. do 2 f_equal.
    rewrite Hevents, fold_left_app, Linux_step_data by done. cbn [fold_left].
    rewrite Linux_step_settled.
    + by destruct ev.
    + destruct ev; try done. cbn [Linux_step]. by destruct (code =? 0).
Qed.

(** X13. After a successful spawn on Linux (the emulator exists, and neither
    [process.env] nor [envVars] has a property named [hasOwnProperty]), as
    long as the launcher has neither exited nor emitted ['error'], the
    promise stays pending: output on the error stream does not settle it. *)
Theorem Linux_launchInTerminal_stays_pending
    host dir args envVars s ambient override proc :
  let p := length (heap s) in
  FS_existsSync host "/usr/bin/gnome-terminal" = true ->
  heap s !! process_env host = Some (CObject ambient) ->
  env_object (heap s) envVars override ->
  finds_builtin ambient ->
  from_option finds_builtin True override ->
  CP_spawn host "/usr/bin/gnome-terminal" (Linux.termArgs host args)
    (Some (mkOptions dir (S p) false)) = Ret proc ->
  forallb is_stderr_data (events proc) = true ->
  exists s1,
    Linux.launchInTerminal host dir args envVars s = (Ret p, s1) /\
    emit_all host (S (S p)) s1 = (Ret tt, s1) /\
    heap s1 !! p = Some (CPromise Pending).
Proof.
  intros p Hterm Hamb Hvars Hma Hmo Hspawn Hevents.
  destruct s as [h f lg]; cbn [heap _terminalService syscalls] in *.
  eexists. split; [| split].
  - by apply (Linux_launchInTerminal_run host dir args envVars h f lg ambient override).
  - subst p. by rewrite Linux_emit_all, Linux_step_data.
  - apply Linux_state_promise.
Qed.

(** ** macOS strategy: the arguments of the interpreter, and spawn errors *)

Lemma fold_left_push {A} (f : A -> list string) l : forall init,
  fold_left (fun acc a => acc ++ f a) l init = init ++ flat_map f l.
Proof.
  induction l as [|a l IH]; intros init; cbn [fold_left flat_map].
  - by rewrite app_nil_r.
  - by rewrite IH, <- app_assoc.
Qed.

Lemma Mac_osaArgs_flat host dir args envVars :
  Mac.osaArgs host dir args envVars =
  [Path_join host (__dirname host) "./terminalHelper.scpt";
   "-t"; localize host "console.title" "VS Code Console" []; "-w"; dir] ++
  flat_map (fun a => ["-pa"; a]) args ++
  match envVars with
  | Some o =>
      flat_map
        (fun key => ["-e"; key +:+ "=" +:+ default "undefined" (get_prop o key)])
        (for_in_keys o)
  | None => []
  end.
Proof.
  unfold Mac.osaArgs, Mac.env_arg, Default.TERMINAL_TITLE.
  destruct envVars as [o|].
  - by rewrite !fold_left_push, <- app_assoc.
  - by rewrite fold_left_push, app_nil_r.
Qed.

(** X14. [MacTerminalService.launchInTerminal] makes one system call: it
    spawns [/usr/bin/osascript], without options, on the helper script next
    to the module, [-t] and the title, [-w] and [dir], then [-pa] and the
    argument for each argument in order, each unchanged, then [-e] and
    [KEY=VALUE] for each property that [for ... in] finds in [envVars]
    (nothing when [envVars] is [undefined]).  [process.env] is not read.
    When the child is returned the promise is pending and the child has its
    three listeners. *)
Theorem Mac_launchInTerminal_spawns host dir args envVars s override proc :
  let p := length (heap s) in
  let argv :=
    [Path_join host (__dirname host) "./terminalHelper.scpt";
     "-t"; localize host "console.title" "VS Code Console" []; "-w"; dir] ++
    flat_map (fun a => ["-pa"; a]) args ++
    match override with
    | Some o =>
        flat_map
          (fun key => ["-e"; key +:+ "=" +:+ default "undefined" (get_prop o key)])
          (for_in_keys o)
    | None => []
    end in
  env_object (heap s) envVars override ->
  CP_spawn host "/usr/bin/osascript" argv None = Ret proc ->
  Mac.launchInTerminal host dir args envVars s =
  (Ret p,
   mkProc
     (heap s ++
      [CPromise Pending; CVar "";
       CChild proc
         [(ev_error, cb_reject p);
          (ev_stderr_data, cb_Mac_stderr_data (S p));
          (ev_exit, cb_Mac_exit p (S p))]])
     (_terminalService s)
     (syscalls s ++ [Call_spawn "/usr/bin/osascript" argv None])).
Proof.
  intros p argv Hvars Hspawn.
  destruct s as [h f lg]; cbn [heap _terminalService syscalls] in *.
  subst argv. rewrite <- Mac_osaArgs_flat in *.
  by apply (Mac_launchInTerminal_run host dir args envVars h f lg override).
Qed.

Lemma lookup_prop_NoDup key v ps :
  NoDup ps.*1 -> (key, v) ∈ ps -> lookup_prop key ps = Some v.
Proof.
  induction ps as [|[k w] ps IH]; cbn [fmap list_fmap fst lookup_prop].
  - by intros _ ?%elem_of_nil.
  - intros [Hk Hps]%NoDup_cons [[= -> ->]|Hin]%elem_of_cons.
    + by rewrite String.eqb_refl.
    + destruct (String.eqb k key) eqn:Heq; [| by apply IH].
      apply String.eqb_eq in Heq as ->. destruct Hk.
      apply list_elem_of_fmap. by exists (key, v).
Qed.

Lemma Mac_launchInTerminal_throws host dir args envVars h f lg override e :
  let argv := Mac.osaArgs host dir args override in
  env_object h envVars override ->
  CP_spawn host "/usr/bin/osascript" argv None = Throw e ->
  Mac.launchInTerminal host dir args envVars (mkProc h f lg) =
  (Ret (length h),
   mkProc (h ++ [CPromise (Rejected e); CVar ""])
     f (lg ++ [Call_spawn "/usr/bin/osascript" argv None])).
Proof.
  intros argv Hvars Hspawn. rewrite <- (app_nil_r h) at 1.
  unfold Mac.launchInTerminal, new_Promise.
  rewrite bind_run, alloc_app. cbn [length app].
  rewrite bind_run. unfold try_catch. rewrite bind_run.
  assert (Hread :
    match envVars with
    | Some l => o ← read_object l; mret (Some o)
    | None => mret None
    end (mkProc (h ++ [CPromise Pending]) f lg) =
    (Ret override, mkProc (h ++ [CPromise Pending]) f lg)).
  { destruct envVars as [l|]; cbn [env_object] in Hvars.
    - destruct Hvars as (o & -> & Hl).
      by rewrite bind_run, (read_object_frame _ _ _ _ _ _ Hl).
    - by subst override. }
  rewrite Hread. rewrite bind_run, alloc_app. cbn [length app].
  rewrite bind_run. unfold spawn.
  rewrite bind_run, log_call_eq, bind_run. unfold lift, Mac.OSASCRIPT.
  fold argv. rewrite Hspawn.
  unfold_run. heap_steps. by rewrite Nat.add_0_r.
Qed.

(** Whatever the spawn answers, it is called once, on these arguments. *)
Lemma Mac_launchInTerminal_log host dir args envVars s override :
  env_object (heap s) envVars override ->
  syscalls (Mac.launchInTerminal host dir args envVars s).2 =
  syscalls s ++
  [Call_spawn "/usr/bin/osascript" (Mac.osaArgs host dir args override) None].
Proof.
  intros Hvars. destruct s as [h f lg]; cbn [heap syscalls] in *.
  destruct (CP_spawn host "/usr/bin/osascript" (Mac.osaArgs host dir args override) None)
    as [proc|e] eqn:Hspawn.
  - by rewrite (Mac_launchInTerminal_run host dir args envVars h f lg override proc).
  - by rewrite (Mac_launchInTerminal_throws host dir args envVars h f lg override e).
Qed.

Lemma env_args_own o :
  inherited o = [] ->
  NoDup (own o).*1 ->
  Forall (fun key => array_index key = None) (own o).*1 ->
  flat_map
    (fun key => ["-e"; key +:+ "=" +:+ default "undefined" (get_prop o key)])
    (for_in_keys o) =
  flat_map (fun kv => ["-e"; kv.1 +:+ "=" +:+ kv.2]) (own o).
Proof.
  intros Hinh Hnodup Hplain. unfold for_in_keys.
  rewrite (own_keys_plain o Hplain), Hinh.
  cbn [fmap list_fmap filter list_filter]. rewrite app_nil_r.
  assert (Hall : forall kv, kv ∈ own o -> get_prop o kv.1 = Some kv.2).
  { intros [k v] Hin. unfold get_prop; cbn [fst snd].
    by rewrite (lookup_prop_NoDup k v (own o)). }
  clear Hnodup Hinh Hplain. induction (own o) as [|[k v] ps IH];
    cbn [fmap list_fmap flat_map fst snd]; [done |].
  pose proof (Hall (k, v)) as Hkv. cbn [fst snd] in Hkv.
  rewrite Hkv by (apply elem_of_cons; by left). cbn [default].
  rewrite <- IH; [done |]. intros kv Hin. apply Hall. apply elem_of_cons; by right.
Qed.

(** X15. For an [envVars] object without inherited enumerable properties,
    whose own names are distinct and none of them an array index, the
    arguments [MacTerminalService.launchInTerminal] builds and hands to its
    one [CP.spawn] are the fixed ones, [-pa] and each argument, and then
    [-e] and [KEY=VALUE] for the own properties of [envVars] exactly, in
    their order. *)
Theorem Mac_env_arguments_of_own_properties host dir args l s o :
  let argv :=
    [Path_join host (__dirname host) "./terminalHelper.scpt";
     "-t"; localize host "console.title" "VS Code Console" []; "-w"; dir] ++
    flat_map (fun a => ["-pa"; a]) args ++
    flat_map (fun kv => ["-e"; kv.1 +:+ "=" +:+ kv.2]) (own o) in
  heap s !! l = Some (CObject o) ->
  inherited o = [] ->
  NoDup (own o).*1 ->
  Forall (fun key => array_index key = None) (own o).*1 ->
  Mac.osaArgs host dir args (Some o) = argv /\
  syscalls (Mac.launchInTerminal host dir args (Some l) s).2 =
    syscalls s ++ [Call_spawn "/usr/bin/osascript" argv None].
Proof.
  intros argv Hl Hinh Hnodup Hplain.
  assert (Hargv : Mac.osaArgs host dir args (Some o) = argv).
  { rewrite Mac_osaArgs_flat. subst argv. by rewrite env_args_own. }
  split; [done |]. rewrite <- Hargv.
  apply Mac_launchInTerminal_log. cbn [env_object]. eauto.
Qed.

Lemma Mac_env_arguments_of_own_properties_witness :
  let host := sample_host "darwin" (fun _ => true) (mkChild 4711 []) in
  let argv :=
    ["/ext/out/node/terminalHelper.scpt"; "-t"; "VS Code Console"; "-w"; "/tmp";
     "-pa"; "node"; "-pa"; "app.js";
     "-e"; "PATH=/custom"; "-e"; "FOO=1"] in
  Mac.osaArgs host "/tmp" ["node"; "app.js"]
    (Some (mkObject [("PATH", "/custom"); ("FOO", "1")] [])) = argv /\
  syscalls (Mac.launchInTerminal host "/tmp" ["node"; "app.js"] (Some 1%nat) boot).2 =
    [Call_spawn "/usr/bin/osascript" argv None].
Proof.
  intros host argv.
  apply (Mac_env_arguments_of_own_properties host "/tmp" ["node"; "app.js"] 1%nat boot
           (mkObject [("PATH", "/custom"); ("FOO", "1")] [])).
  - reflexivity.
  - reflexivity.
  - apply (bool_decide_unpack _). by vm_compute.
  - repeat constructor.
Defined.

Lemma Mac_state_promise h f lg proc st :
  heap (Mac_state h f lg proc st) !! length h = Some (CPromise st.1).
Proof.
  unfold Mac_state; cbn [heap]. by rewrite lookup_app_r, Nat.sub_diag by lia.
Qed.

Lemma Mac_emit_all host h f lg proc st :
  emit_all host (S (S (length h))) (Mac_state h f lg proc st) =
  (Ret tt, Mac_state h f lg proc (fold_left (Mac_step host) (events proc) st)).
Proof.
  unfold emit_all. rewrite bind_run.
  unfold Mac_state at 1. canon h. rewrite read_app. cbn [lookup list_lookup].
  replace (length h + 2)%nat with (S (S (length h))) by lia.
  apply Mac_emit_events.
Qed.

(** X16. On macOS, when the interpreter emits ['error'] before it exits, the
    promise is rejected with that error, whatever was written to the error
    stream before; the exit that may follow, with code 0 or not, does not
    change it. *)
Theorem Mac_launchInTerminal_error_first
    host dir args envVars s override proc pre err post :
  let p := length (heap s) in
  env_object (heap s) envVars override ->
  CP_spawn host "/usr/bin/osascript" (Mac.osaArgs host dir args override) None
    = Ret proc ->
  events proc = pre ++ OnError err :: post ->
  forallb is_stderr_data pre = true ->
  exists s1 s2,
    Mac.launchInTerminal host dir args envVars s = (Ret p, s1) /\
    emit_all host (S (S p)) s1 = (Ret tt, s2) /\
    heap s2 !! p = Some (CPromise (Rejected err)).
Proof.
  intros p Hvars Hspawn Hevents Hpre.
  destruct s as [h f lg]; cbn [heap _terminalService syscalls] in *.
  eexists; eexists. split; [| split].
  - by apply (Mac_launchInTerminal_run host dir args envVars h f lg override).
  - apply (Mac_emit_all host h f _ proc (Pending, "")).
  - subst p. rewrite Mac_state_promise. do 2 f_equal.
    rewrite Hevents, fold_left_app. cbn [fold_left].
    rewrite Mac_step_settled; by rewrite Mac_step_data.
Qed.

(** ** A spawn that throws *)

(** X17. On the three strategies that spawn, when [CP.spawn] throws instead
    of returning a child, [launchInTerminal] still returns its promise, and
    the promise is rejected with the exception thrown; no child cell and no
    listener exist.  On Windows and Linux the spawn is reached only when
    neither [process.env] nor [envVars] has a property named
    [hasOwnProperty]. *)
Theorem launchInTerminal_spawn_throws host cls dir args envVars s ambient override e :
  cls <> DefaultTerminalService ->
  (cls = LinuxTerminalService ->
   FS_existsSync host "/usr/bin/gnome-terminal" = true) ->
  heap s !! process_env host = Some (CObject ambient) ->
  env_object (heap s) envVars override ->
  (cls <> MacTerminalService ->
   finds_builtin ambient /\ from_option finds_builtin True override) ->
  (forall command argv options, CP_spawn host command argv options = Throw e) ->
  exists s' c,
    ITerminalService.launchInTerminal host cls dir args envVars s =
      (Ret (length (heap s)), s') /\
    heap s' = heap s ++ [CPromise (Rejected e); c] /\
    (forall proc listeners, c <> CChild proc listeners).
Proof.
  intros Hcls Hterm Hamb Hvars Hmethod Hspawn.
  destruct s as [h f lg]; cbn [heap] in *.
  destruct cls; [done | | |]; cbn [ITerminalService.launchInTerminal].
  - destruct Hmethod as [Hma Hmo]; [done |].
    eexists; eexists; (split; [rewrite <- (app_nil_r h) at 1 |]).
    + unfold Windows.launchInTerminal, new_Promise.
      rewrite bind_run, alloc_app. cbn [length app].
      rewrite bind_run. unfold try_catch.
      rewrite bind_run, (merged_env_app host _ _ _ _ _ _ _ Hamb Hvars Hma Hmo).
      cbn [length app]. rewrite bind_run. unfold spawn.
      rewrite bind_run, log_call_eq, bind_run. unfold lift. rewrite Hspawn.
      unfold_run. heap_steps. rewrite Nat.add_0_r. reflexivity.
    + split; [reflexivity | done].
  - destruct Hmethod as [Hma Hmo]; [done |].
    eexists; eexists; (split; [rewrite <- (app_nil_r h) at 1 |]).
    + unfold Linux.launchInTerminal, new_Promise, Linux.LINUX_TERM.
      rewrite bind_run, alloc_app. cbn [length app].
      rewrite bind_run. unfold try_catch.
      rewrite bind_run. unfold existsSync.
      rewrite bind_run, log_call_eq, ret_run, Hterm by done. cbn [negb].
      rewrite bind_run, (merged_env_app host _ _ _ _ _ _ _ Hamb Hvars Hma Hmo).
      cbn [length app]. rewrite bind_run. unfold spawn.
      rewrite bind_run, log_call_eq, bind_run. unfold lift. rewrite Hspawn.
      unfold_run. heap_steps. rewrite Nat.add_0_r. reflexivity.
    + split; [reflexivity | done].
  - eexists; eexists.
    split; [by apply (Mac_launchInTerminal_throws host dir args envVars h f lg override e) |].
    split; [reflexivity | done].
Qed.

(** ** [extendObject] in general *)

Lemma with_heap_id s : with_heap (heap s) s = s.
Proof. by destruct s. Qed.

Lemma extendObject_loop_at copy obj o keys : forall s c,
  copy <> obj ->
  heap s !! obj = Some (CObject o) ->
  heap s !! copy = Some (CObject c) ->
  finds_builtin o ->
  for_each keys (extend_body copy obj) s =
  (Ret tt,
   with_heap
     (<[copy := CObject (mkObject
         (fold_left
            (fun ps key => match lookup_prop key (own o) with
                           | Some v => store_prop key v ps
                           | None => ps
                           end) keys (own c))
         (inherited c))]> (heap s)) s).
Proof.
  induction keys as [|key keys IH]; intros s c Hne Hobj Hcopy Hmethod;
    cbn [for_each fold_left].
  - destruct c as [ps inh]; cbn [own inherited].
    by rewrite list_insert_id, with_heap_id.
  - rewrite bind_run. unfold extend_body at 1.
    rewrite bind_run, (read_object_at _ _ _ Hobj), bind_run, lift_run.
    destruct (lookup_prop key (own o)) as [v|] eqn:Hkey.
    + rewrite (hasOwnProperty_Some _ _ _ Hmethod Hkey).
      rewrite bind_run, (read_object_at _ _ _ Hcopy), (get_prop_own _ _ _ Hkey).
      unfold write at 1.
      pose proof (lookup_lt_Some _ _ _ Hcopy) as Hlt.
      rewrite (IH _ (set_prop c key v)); cbn [heap with_heap]; try done.
      * unfold with_heap; cbn [heap _terminalService syscalls].
        by rewrite list_insert_insert_eq, set_prop_store.
      * by rewrite list_lookup_insert_ne.
      * by apply list_lookup_insert_eq.
    + rewrite (hasOwnProperty_None _ _ Hmethod Hkey).
      by rewrite ret_run, (IH s c).
Qed.

(** X18. [extendObject(objectCopy, object)], for two different objects of
    which [object] has no property named [hasOwnProperty], returns
    [objectCopy] and changes that object only: afterwards each own property
    of [object] is an own property of [objectCopy] with the same value, the
    other own properties of [objectCopy] are as before, and what [object]
    merely inherits is not copied.  The name [__proto__] is the exception:
    it is copied only when [objectCopy] has an own property of that name
    already. *)
Theorem extendObject_copies_own_properties s objectCopy object o c :
  objectCopy <> object ->
  heap s !! object = Some (CObject o) ->
  heap s !! objectCopy = Some (CObject c) ->
  finds_builtin o ->
  exists c',
    extendObject objectCopy (Some object) s =
      (Ret objectCopy, with_heap (<[objectCopy := CObject c']> (heap s)) s) /\
    inherited c' = inherited c /\
    (forall key,
       key <> "__proto__" \/ is_Some (lookup_prop "__proto__" (own c)) ->
       lookup_prop key (own c') =
       match lookup_prop key (own o) with
       | Some v => Some v
       | None => lookup_prop key (own c)
       end) /\
    (lookup_prop "__proto__" (own c) = None ->
     lookup_prop "__proto__" (own c') = None).
Proof.
  intros Hne Hobj Hcopy Hmethod.
  exists (mkObject (copy_props o (own c)) (inherited c)).
  split; [| split; [done | split]].
  - unfold extendObject, for_in.
    rewrite bind_run, bind_run, (read_object_at _ _ _ Hobj).
    by rewrite (extendObject_loop_at objectCopy object o (for_in_keys o) s c).
  - intros key Hkey. by apply lookup_copy_props.
  - apply lookup_copy_props_proto.
Qed.

Lemma extendObject_copies_own_properties_witness :
  exists c',
    extendObject 1%nat (Some 0%nat) boot =
      (Ret 1%nat, with_heap (<[1%nat := CObject c']> (heap boot)) boot) /\
    inherited c' = [] /\
    (forall key,
       key <> "__proto__" \/
       is_Some (lookup_prop "__proto__" [("PATH", "/custom"); ("FOO", "1")]) ->
       lookup_prop key (own c') =
       match lookup_prop key [("PATH", "/bin")] with
       | Some v => Some v
       | None => lookup_prop key [("PATH", "/custom"); ("FOO", "1")]
       end) /\
    (lookup_prop "__proto__" [("PATH", "/custom"); ("FOO", "1")] = None ->
     lookup_prop "__proto__" (own c') = None).
Proof.
  apply (extendObject_copies_own_properties boot 1%nat 0%nat
           (mkObject [("PATH", "/bin")] [])
           (mkObject [("PATH", "/custom"); ("FOO", "1")] []));
    [discriminate | reflexivity..].
Defined.

Lemma extendObject_self_loop l o keys s :
  heap s !! l = Some (CObject o) ->
  finds_builtin o ->
  for_each keys (extend_body l l) s = (Ret tt, s).
Proof.
  intros Hl Hmethod. induction keys as [|key keys IH]; cbn [for_each]; [done |].
  rewrite bind_run. unfold extend_body at 1.
  rewrite bind_run, (read_object_at _ _ _ Hl), bind_run, lift_run.
  destruct (lookup_prop key (own o)) as [v|] eqn:Hkey.
  - rewrite (hasOwnProperty_Some _ _ _ Hmethod Hkey).
    rewrite bind_run, (read_object_at _ _ _ Hl), (get_prop_own _ _ _ Hkey).
    unfold write at 1. rewrite set_prop_store, (store_prop_id _ _ _ Hkey).
    destruct o as [ps inh]; cbn [own inherited] in *.
    by rewrite list_insert_id, with_heap_id.
  - by rewrite (hasOwnProperty_None _ _ Hmethod Hkey), ret_run.
Qed.

(** X19. [extendObject(o, o)], where both arguments are one object that has
    no property named [hasOwnProperty], returns it and changes nothing,
    although it assigns every own property of [o] to itself while it
    enumerates [o]. *)
Theorem extendObject_same_object s l o :
  heap s !! l = Some (CObject o) ->
  finds_builtin o ->
  extendObject l (Some l) s = (Ret l, s).
Proof.
  intros Hl Hmethod. unfold extendObject, for_in.
  rewrite bind_run, bind_run, (read_object_at _ _ _ Hl).
  by rewrite (extendObject_self_loop l o (for_in_keys o) s Hl).
Qed.

Lemma extendObject_same_object_witness :
  extendObject 1%nat (Some 1%nat) boot = (Ret 1%nat, boot).
Proof.
  apply (extendObject_same_object boot 1%nat
           (mkObject [("PATH", "/custom"); ("FOO", "1")] []));
    reflexivity.
Defined.

(** ** The merged environment *)

(** X20. When [envVars] is [undefined] and [process.env] has no property
    named [hasOwnProperty], the environment handed to the spawn is a new
    object with exactly the own properties of [process.env], [__proto__]
    aside, which it never has: what [process.env] inherits is left out, and
    [process.env] itself is not the object passed on. *)
Theorem merged_env_without_envVars host s ambient :
  heap s !! process_env host = Some (CObject ambient) ->
  finds_builtin ambient ->
  exists merged,
    merged_env host None s =
      (Ret (length (heap s)),
       mkProc (heap s ++ [CObject (mkObject merged [])])
         (_terminalService s) (syscalls s)) /\
    length (heap s) <> process_env host /\
    (forall key,
       key <> "__proto__" ->
       lookup_prop key merged = lookup_prop key (own ambient)) /\
    lookup_prop "__proto__" merged = None.
Proof.
  intros Hamb Hmethod.
  destruct s as [h f lg]; cbn [heap _terminalService syscalls] in *.
  exists (merged_props ambient None). split; [| split; [| split]].
  - rewrite <- (app_nil_r h) at 1.
    rewrite (merged_env_app host h [] f lg None ambient None Hamb) by done.
    cbn [length app]. by rewrite Nat.add_0_r.
  - apply lookup_lt_Some in Hamb. lia.
  - intros key Hkey. cbn [merged_props]. rewrite lookup_copy_props by (by left).
    by destruct (lookup_prop key (own ambient)).
  - by apply lookup_copy_props_proto.
Qed.

Lemma merged_env_without_envVars_witness :
  exists merged,
    merged_env (sample_host "linux" (fun _ => true) (mkChild 1 [])) None boot =
      (Ret 2%nat, mkProc (heap boot ++ [CObject (mkObject merged [])]) None []) /\
    2%nat <> 0%nat /\
    (forall key,
       key <> "__proto__" ->
       lookup_prop key merged = lookup_prop key [("PATH", "/bin")]) /\
    lookup_prop "__proto__" merged = None.
Proof.
  exact (merged_env_without_envVars
           (sample_host "linux" (fun _ => true) (mkChild 1 [])) boot
           (mkObject [("PATH", "/bin")] []) eq_refl eq_refl).
Defined.

Lemma elem_of_assign_keys x key value ps :
  x ∈ (assign_prop key value ps).*1 <-> x = key \/ x ∈ ps.*1.
Proof.
  induction ps as [|[k v] ps IH]; cbn [assign_prop fmap list_fmap fst].
  - rewrite list_elem_of_singleton, elem_of_nil. tauto.
  - destruct (String.eqb k key) eqn:Hk; cbn [fmap list_fmap fst].
    + apply String.eqb_eq in Hk as ->. rewrite !elem_of_cons. tauto.
    + rewrite !elem_of_cons, IH. tauto.
Qed.

Lemma NoDup_assign_keys key value ps :
  NoDup ps.*1 -> NoDup (assign_prop key value ps).*1.
Proof.
  induction ps as [|[k v] ps IH]; cbn [assign_prop fmap list_fmap fst].
  - intros _. apply NoDup_singleton.
  - intros [Hk Hps]%NoDup_cons.
    destruct (String.eqb k key) eqn:Heq; cbn [fmap list_fmap fst].
    + by apply NoDup_cons.
    + apply NoDup_cons. split; [| by apply IH].
      rewrite elem_of_assign_keys. intros [->|?]; [| done].
      by rewrite String.eqb_refl in Heq.
Qed.

Lemma lookup_prop_is_Some key ps :
  is_Some (lookup_prop key ps) <-> key ∈ ps.*1.
Proof.
  split.
  - intros [v Hv]. by eapply lookup_prop_Some_keys.
  - induction ps as [|[k v] ps IH]; cbn [fmap list_fmap fst lookup_prop].
    + by intros ?%elem_of_nil.
    + destruct (String.eqb k key) eqn:Heq; [eauto |].
      intros [->|?]%elem_of_cons; [| by apply IH].
      by rewrite String.eqb_refl in Heq.
Qed.

Lemma NoDup_copy_props o ps : NoDup ps.*1 -> NoDup (copy_props o ps).*1.
Proof.
  unfold copy_props. generalize (for_in_keys o) as keys.
  intros keys. revert ps. induction keys as [|key keys IH]; intros ps Hps;
    cbn [fold_left]; [done |].
  apply IH. destruct (lookup_prop key (own o)); [| done].
  rewrite store_prop_eq. destruct (_ && _); [done |].
  by apply NoDup_assign_keys.
Qed.

(** The names of the object [merged_env] builds. *)
Lemma elem_of_merged_props ambient override key :
  key ∈ (merged_props ambient override).*1 <->
  key <> "__proto__" /\
  (key ∈ (own ambient).*1 \/
   match override with
   | Some o => key ∈ (own o).*1
   | None => False
   end).
Proof.
  rewrite <- !lookup_prop_is_Some.
  destruct (decide (key = "__proto__")) as [->|Hne].
  - assert (Hnone : lookup_prop "__proto__" (merged_props ambient override) = None).
    { destruct override; cbn [merged_props];
        repeat apply lookup_copy_props_proto; done. }
    rewrite Hnone. split; [by intros [? [=]] | by intros [? _]].
  - assert (Hlookup :
      lookup_prop key (merged_props ambient override) =
      match override with
      | Some o =>
          match lookup_prop key (own o) with
          | Some v => Some v
          | None => lookup_prop key (own ambient)
          end
      | None => lookup_prop key (own ambient)
      end).
    { destruct override as [o|]; cbn [merged_props];
        rewrite !lookup_copy_props by (by left); cbn [lookup_prop];
        repeat case_match; done. }
    rewrite Hlookup. destruct override as [o|].
    + rewrite <- lookup_prop_is_Some.
      destruct (lookup_prop key (own o)) as [v|].
      * split; [eauto | eauto].
      * split; [intros H; split; [done | by left] |].
        intros [_ [H|[? [=]]]]. done.
    + split; [intros H; split; [done | by left] |].
      by intros [_ [H|[]]].
Qed.

(** X21. When neither [process.env] nor [envVars] has a property named
    [hasOwnProperty], the merged environment lists each name once: its
    names are those of [process.env] and of [envVars] together, [__proto__]
    aside, without repetition, and it inherits nothing enumerable. *)
Theorem merged_env_names host s envVars ambient override :
  heap s !! process_env host = Some (CObject ambient) ->
  env_object (heap s) envVars override ->
  finds_builtin ambient ->
  from_option finds_builtin True override ->
  exists merged,
    merged_env host envVars s =
      (Ret (length (heap s)),
       mkProc (heap s ++ [CObject (mkObject merged [])])
         (_terminalService s) (syscalls s)) /\
    NoDup merged.*1 /\
    (forall key,
       key ∈ merged.*1 <->
       key <> "__proto__" /\
       (key ∈ (own ambient).*1 \/
        match override with
        | Some o => key ∈ (own o).*1
        | None => False
        end)).
Proof.
  intros Hamb Hvars Hma Hmo.
  destruct s as [h f lg]; cbn [heap _terminalService syscalls] in *.
  exists (merged_props ambient override). split; [| split].
  - rewrite <- (app_nil_r h) at 1.
    rewrite (merged_env_app host h [] f lg envVars ambient override Hamb Hvars Hma Hmo).
    cbn [length app]. by rewrite Nat.add_0_r.
  - destruct override; cbn [merged_props];
      repeat apply NoDup_copy_props; apply NoDup_nil_2.
  - apply elem_of_merged_props.
Qed.

Lemma merged_env_names_witness :
  exists merged,
    merged_env (sample_host "linux" (fun _ => true) (mkChild 1 [])) (Some 1%nat) boot =
      (Ret 2%nat, mkProc (heap boot ++ [CObject (mkObject merged [])]) None []) /\
    NoDup merged.*1 /\
    (forall key,
       key ∈ merged.*1 <->
       key <> "__proto__" /\ (key ∈ ["PATH"] \/ key ∈ ["PATH"; "FOO"])).
Proof.
  apply (merged_env_names
           (sample_host "linux" (fun _ => true) (mkChild 1 [])) boot (Some 1%nat)
           (mkObject [("PATH", "/bin")] [])
           (Some (mkObject [("PATH", "/custom"); ("FOO", "1")] []))).
  - reflexivity.
  - cbn. eauto.
  - reflexivity.
  - reflexivity.
Defined.

(** ** More on [quote], and the Windows command line *)

Lemma quote_append args1 args2 :
  quote (args1 ++ args2) = quote args1 +:+ quote args2.
Proof.
  unfold quote at 1. rewrite fold_left_app. fold (quote args1).
  apply quote_from.
Qed.

(** X22. [quote] works argument by argument: quoting a list that is two
    lists one after the other gives the two quoted strings one after the
    other. *)
Theorem quote_app args1 args2 :
  quote (args1 ++ args2) = quote args1 +:+ quote args2.
Proof. apply quote_append. Qed.

(** The command word of a line is looked for after its leading blanks. *)
Lemma command_word_quote_empty args :
  Shell.command_word (quote ("" :: args)) = Shell.command_word (quote args).
Proof. by rewrite quote_cons. Qed.

Lemma command_word_append_bare a rest1 rest2 :
  bare_safe a = true ->
  Shell.command_word (a +:+ String " " rest1) =
  Shell.command_word (a +:+ String " " rest2).
Proof.
  unfold bare_safe. destruct a as [|c a]; [done |].
  intros [[_ Hord]%andb_prop _]%andb_prop.
  pose proof (upto_blank_bare _ rest1 Hord) as H1.
  pose proof (upto_blank_bare _ rest2 Hord) as H2.
  cbn [all_chars] in Hord. apply andb_prop in Hord as [Hc _].
  apply ordinary_inv in Hc as (Hbl & _).
  rewrite !append_cons in *. cbn [Shell.command_word]. rewrite Hbl. congruence.
Qed.

(** Dropping an empty argument leaves the command word what it was. *)
Lemma command_word_drop_empty args1 args2 :
  Forall (fun a => shell_safe a = true) args1 ->
  command_safe (args1 ++ args2) = true ->
  Shell.is_reserved (Shell.command_word (quote (args1 ++ "" :: args2))) ||
  Shell.is_assignment (Shell.command_word (quote (args1 ++ "" :: args2))) =
  Shell.is_reserved (Shell.command_word (quote (args1 ++ args2))) ||
  Shell.is_assignment (Shell.command_word (quote (args1 ++ args2))).
Proof.
  intros Hsafe Hcmd. destruct Hsafe as [|a args1 Ha Hargs1]; cbn [app].
  - by rewrite command_word_quote_empty.
  - rewrite !command_word_quote by done. destruct (has_char " " a); [| done].
    unfold dq. rewrite !append_cons. cbn [Shell.upto_blank].
    change (Shell.is_blank "034") with false. cbn match.
    reflexivity.
Qed.

(** X23. An empty argument is lost: [quote] writes nothing but a space for
    it, so among arguments that are otherwise carried through, the shell
    reads the line back without it. *)
Theorem quote_drops_empty_argument args1 args2 :
  Forall (fun a => shell_safe a = true) args1 ->
  Forall (fun a => shell_safe a = true) args2 ->
  command_safe (args1 ++ args2) = true ->
  quote (args1 ++ "" :: args2) = quote args1 +:+ " " +:+ quote args2 /\
  Shell.split (quote (args1 ++ "" :: args2)) = Some (args1 ++ args2).
Proof.
  intros H1 H2 Hcmd.
  assert (Hq : quote (args1 ++ "" :: args2) = quote args1 +:+ " " +:+ quote args2).
  { by rewrite quote_append, quote_cons. }
  split; [done |].
  assert (H12 : Forall (fun a => shell_safe a = true) (args1 ++ args2))
    by (by apply Forall_app).
  unfold Shell.split.
  rewrite command_word_drop_empty, command_word_accepted by done.
  rewrite Hq, !has_char_append, !has_NUL_quote by done. cbn [orb has_char Ascii.eqb].
  rewrite split_quote_then by done.
  change (" " +:+ quote args2) with (String " " (quote args2)).
  cbn [Shell.split_from]. change (Shell.is_blank " ") with true. cbn match.
  cbn [Shell.finish].
  rewrite <- (append_nil_r (quote args2)), split_quote_then by done.
  cbn [Shell.split_from Shell.finish fmap option_fmap option_map].
  by rewrite app_nil_r, command_safe_names.
Qed.

Lemma quote_drops_empty_argument_witness :
  quote (["node"] ++ "" :: ["my file.js"]) =
    quote ["node"] +:+ " " +:+ quote ["my file.js"] /\
  Shell.split (quote (["node"] ++ "" :: ["my file.js"])) =
    Some (["node"] ++ ["my file.js"]).
Proof.
  apply (quote_drops_empty_argument ["node"] ["my file.js"]);
    [repeat constructor.. | reflexivity].
Defined.

Lemma concat_wrapped a args :
  dq +:+ String.concat (dq +:+ " " +:+ dq) (a :: args) +:+ dq =
  String.concat " " (map wrapped (a :: args)).
Proof.
  revert a. induction args as [|b args IH]; intros a.
  - reflexivity.
  - change (String.concat (dq +:+ " " +:+ dq) (a :: b :: args))
      with (a +:+ (dq +:+ " " +:+ dq) +:+ String.concat (dq +:+ " " +:+ dq) (b :: args)).
    change (String.concat " " (map wrapped (a :: b :: args)))
      with (wrapped a +:+ " " +:+ String.concat " " (map wrapped (b :: args))).
    rewrite <- IH. unfold wrapped. by rewrite !append_assoc.
Qed.

(** X24. The command line built by the Windows strategy, for at least one
    argument: every argument is put between double quotes, whether it has a
    space or not and without escaping, the quoted arguments are separated by
    single spaces, and the whole is followed by [ & pause] and enclosed in
    one more pair of double quotes. *)
Theorem Windows_command_wraps_every_argument a args :
  Windows.command (a :: args) =
  dq +:+ String.concat " " (map (fun x => dq +:+ x +:+ dq) (a :: args)) +:+
  " & pause" +:+ dq.
Proof.
  unfold Windows.command.
  pose proof (concat_wrapped a args) as Hw. unfold wrapped in Hw.
  rewrite <- Hw. by rewrite !append_assoc.
Qed.

(** ** The further properties on the sample host *)

Lemma Linux_launchInTerminal_spawns_witness :
  let host := sample_host "linux" (fun _ => true) (mkChild 7 [OnExit 0]) in
  syscalls (Linux.launchInTerminal host "/tmp" ["node"; "my file.js"] (Some 1%nat)
              boot).2 =
  [Call_existsSync "/usr/bin/gnome-terminal";
   Call_spawn "/usr/bin/gnome-terminal"
     ["--title"; dq +:+ "VS Code Console" +:+ dq; "-x"; "bash"; "-c";
      "''node " +:+ dq +:+ "my file.js" +:+ dq +:+ " ; echo; read -p " +:+ dq +:+
      "Press any key to continue..." +:+ dq +:+ " -n1;''"]
     (Some (mkOptions "/tmp" 3%nat false))].
Proof.
  intros host.
  rewrite (Linux_launchInTerminal_spawns host "/tmp" ["node"; "my file.js"]
             (Some 1%nat) boot (mkObject [("PATH", "/bin")] [])
             (Some (mkObject [("PATH", "/custom"); ("FOO", "1")] []))
             (mkChild 7 [OnExit 0])).
  - reflexivity.
  - reflexivity.
  - reflexivity.
  - cbn. eauto.
  - reflexivity.
  - reflexivity.
  - reflexivity.
Defined.

Lemma Linux_launchInTerminal_outcome_witness :
  let host :=
    sample_host "linux" (fun _ => true)
      (mkChild 7 [OnStderrData "warning"; OnExit 2; OnExit 0]) in
  exists s1 s2,
    Linux.launchInTerminal host "/tmp" ["node"] None boot = (Ret 2%nat, s1) /\
    emit_all host 4%nat s1 = (Ret tt, s2) /\
    heap s2 !! 2%nat =
      Some (CPromise (Rejected (TerminalErr (new_TerminalError
        "/usr/bin/gnome-terminal failed with exit code 2" None)))).
Proof.
  intros host.
  apply (Linux_launchInTerminal_outcome host "/tmp" ["node"] None boot
           (mkObject [("PATH", "/bin")] []) None
           (mkChild 7 [OnStderrData "warning"; OnExit 2; OnExit 0])
           [OnStderrData "warning"] (OnExit 2) [OnExit 0]);
    first [reflexivity | exact I].
Defined.

(** A launcher ended by a signal: the exit code in the message is [null]. *)
Example Linux_launchInTerminal_killed :
  let host :=
    sample_host "linux" (fun _ => true) (mkChild 7 [OnExitSignal "SIGTERM"]) in
  (heap ((_ ← Linux.launchInTerminal host "/tmp" ["node"] None;
          emit_all host 4%nat) boot).2) !! 2%nat =
  Some (CPromise (Rejected (TerminalErr
    (new_TerminalError "/usr/bin/gnome-terminal failed with exit code null" None)))).
Proof. reflexivity. Qed.

Lemma Linux_launchInTerminal_stays_pending_witness :
  let host :=
    sample_host "linux" (fun _ => true) (mkChild 7 [OnStderrData "warning"]) in
  exists s1,
    Linux.launchInTerminal host "/tmp" ["node"] None boot = (Ret 2%nat, s1) /\
    emit_all host 4%nat s1 = (Ret tt, s1) /\
    heap s1 !! 2%nat = Some (CPromise Pending).
Proof.
  intros host.
  apply (Linux_launchInTerminal_stays_pending host "/tmp" ["node"] None boot
           (mkObject [("PATH", "/bin")] []) None
           (mkChild 7 [OnStderrData "warning"]));
    first [reflexivity | exact I].
Defined.

Lemma Mac_launchInTerminal_spawns_witness :
  let host := sample_host "darwin" (fun _ => true) (mkChild 7 [OnExit 0]) in
  syscalls (Mac.launchInTerminal host "/tmp" ["node"; "my file.js"] (Some 1%nat)
              boot).2 =
  [Call_spawn "/usr/bin/osascript"
     ["/ext/out/node/terminalHelper.scpt"; "-t"; "VS Code Console"; "-w"; "/tmp";
      "-pa"; "node"; "-pa"; "my file.js"; "-e"; "PATH=/custom"; "-e"; "FOO=1"]
     None].
Proof.
  intros host.
  rewrite (Mac_launchInTerminal_spawns host "/tmp" ["node"; "my file.js"]
             (Some 1%nat) boot
             (Some (mkObject [("PATH", "/custom"); ("FOO", "1")] []))
             (mkChild 7 [OnExit 0])).
  - reflexivity.
  - cbn. eauto.
  - reflexivity.
Defined.

Lemma Mac_launchInTerminal_error_first_witness :
  let host :=
    sample_host "darwin" (fun _ => true)
      (mkChild 7 [OnStderrData "oops"; OnError (NativeErr "spawn ENOENT"); OnExit 0]) in
  exists s1 s2,
    Mac.launchInTerminal host "/tmp" ["node"] None boot = (Ret 2%nat, s1) /\
    emit_all host 4%nat s1 = (Ret tt, s2) /\
    heap s2 !! 2%nat = Some (CPromise (Rejected (NativeErr "spawn ENOENT"))).
Proof.
  intros host.
  apply (Mac_launchInTerminal_error_first host "/tmp" ["node"] None boot None
           (mkChild 7 [OnStderrData "oops"; OnError (NativeErr "spawn ENOENT"); OnExit 0])
           [OnStderrData "oops"] (NativeErr "spawn ENOENT") [OnExit 0]);
    reflexivity.
Defined.

Lemma launchInTerminal_spawn_throws_witness :
  let host :=
    mkHost "win32" 0%nat "/ext/out/node" sample_join (fun _ m a => format m a)
      (fun _ => true) (fun _ => Ret tt)
      (fun _ _ => Ret (mkSpawnSyncResult None (Some 0)))
      (fun _ _ _ => Throw (NativeErr "spawn EACCES")) in
  exists s' c,
    Windows.launchInTerminal host "/tmp" ["node"] None boot = (Ret 2%nat, s') /\
    heap s' = heap boot ++ [CPromise (Rejected (NativeErr "spawn EACCES")); c] /\
    (forall proc listeners, c <> CChild proc listeners).
Proof.
  intros host.
  apply (launchInTerminal_spawn_throws host WindowsTerminalService "/tmp" ["node"]
           None boot (mkObject [("PATH", "/bin")] []) None
           (NativeErr "spawn EACCES")).
  - discriminate.
  - discriminate.
  - reflexivity.
  - reflexivity.
  - intros _. split; [reflexivity | exact I].
  - reflexivity.
Defined.

Lemma Terminal_isOnPath_never_throws_witness :
  exists (answer : bool) s',
    Terminal.isOnPath (sample_host "linux" (fun _ => false) (mkChild 1 [])) "node" boot
      = (Ret answer, s').
Proof.
  apply (Terminal_isOnPath_never_throws
           (sample_host "linux" (fun _ => false) (mkChild 1 [])) "node" boot).
  exact I.
Defined.
(** ** A property named [hasOwnProperty] *)

(** X27. When the object that is copied has an enumerable property named
    [hasOwnProperty], own or inherited, [extendObject] throws a [TypeError]
    at the first name it visits, whatever [objectCopy] is, and has changed
    nothing. *)
Theorem extendObject_throws_on_shadowed_method s objectCopy object o v :
  heap s !! object = Some (CObject o) ->
  get_prop o "hasOwnProperty" = Some v ->
  extendObject objectCopy (Some object) s = (Throw TypeError, s).
Proof. apply extendObject_shadowed. Qed.

Lemma extendObject_throws_on_shadowed_method_witness :
  let s :=
    mkProc
      [CObject (mkObject [] []);
       CObject (mkObject [("A", "1"); ("hasOwnProperty", "x"); ("B", "2")] [])]
      None [] in
  extendObject 0%nat (Some 1%nat) s = (Throw TypeError, s).
Proof.
  intros s.
  apply (extendObject_throws_on_shadowed_method s 0%nat 1%nat
           (mkObject [("A", "1"); ("hasOwnProperty", "x"); ("B", "2")] []) "x");
    reflexivity.
Defined.

(** X28. On Windows and on Linux (with the emulator present), when
    [process.env] or [envVars] has an enumerable property named
    [hasOwnProperty], [launchInTerminal] returns a promise that is already
    rejected with the [TypeError] of the merge; [CP.spawn] is not called,
    and the only cell allocated besides the promise is the unfinished copy
    of the environment. *)
Theorem launchInTerminal_rejects_on_shadowed_method
    host cls dir args envVars s ambient override :
  cls = WindowsTerminalService \/
  (cls = LinuxTerminalService /\
   FS_existsSync host "/usr/bin/gnome-terminal" = true) ->
  heap s !! process_env host = Some (CObject ambient) ->
  env_object (heap s) envVars override ->
  ~ (finds_builtin ambient /\ from_option finds_builtin True override) ->
  exists copy,
    ITerminalService.launchInTerminal host cls dir args envVars s =
    (Ret (length (heap s)),
     mkProc (heap s ++ [CPromise (Rejected TypeError); CObject copy])
       (_terminalService s)
       (syscalls s ++
        match cls with
        | LinuxTerminalService => [Call_existsSync "/usr/bin/gnome-terminal"]
        | _ => []
        end)).
Proof.
  intros Hcls Hamb Hvars Hno.
  destruct s as [h f lg]; cbn [heap _terminalService syscalls] in *.
  destruct Hcls as [-> | [-> Hterm]]; cbn [ITerminalService.launchInTerminal].
  - rewrite app_nil_r.
    apply (new_Promise_merge_shadowed host envVars ambient override
             (fun p env =>
                cmd ← spawn host Windows.CMD (Windows.cmdArgs host dir args)
                        (Some (mkOptions dir env true));
                on cmd ev_error (cb_reject p);;
                resolve p (VRef cmd)));
      done.
  - destruct (merged_env_shadowed host
                (mkProc (h ++ [CPromise Pending]) f
                   (lg ++ [Call_existsSync "/usr/bin/gnome-terminal"]))
                envVars ambient override) as [copy Hmerge]; cbn [heap]; try done.
    { by apply lookup_app_l_Some. }
    { destruct envVars as [l|]; cbn [env_object] in *; [| done].
      destruct Hvars as (o & -> & Hl). exists o. split; [done |].
      by apply lookup_app_l_Some. }
    exists copy. unfold Linux.launchInTerminal, new_Promise, Linux.LINUX_TERM.
    rewrite bind_run. unfold alloc at 1, with_heap; cbn [heap _terminalService syscalls].
    rewrite bind_run. unfold try_catch.
    rewrite bind_run. unfold existsSync.
    rewrite bind_run, log_call_eq, ret_run, Hterm. cbn [negb].
    rewrite bind_run, Hmerge.
    unfold with_heap; cbn [heap _terminalService syscalls].
    rewrite <- (assoc_L (++)). cbn [app].
    unfold reject, settle. rewrite bind_run.
    rewrite <- (Nat.add_0_r (length h)) at 1. rewrite read_app.
    cbn [lookup list_lookup]. rewrite <- (Nat.add_0_r (length h)) at 1.
    rewrite write_app. cbn [list_insert insert]. by rewrite ret_run.
Qed.

Lemma launchInTerminal_rejects_on_shadowed_method_witness :
  let host := sample_host "linux" (fun _ => true) (mkChild 7 [OnExit 0]) in
  let s :=
    mkProc
      [CObject (mkObject [("PATH", "/bin"); ("hasOwnProperty", "1")] []);
       CObject (mkObject [("FOO", "1")] [])]
      None [] in
  exists copy,
    Linux.launchInTerminal host "/tmp" ["node"] (Some 1%nat) s =
    (Ret 2%nat,
     mkProc (heap s ++ [CPromise (Rejected TypeError); CObject copy]) None
       [Call_existsSync "/usr/bin/gnome-terminal"]).
Proof.
  intros host s.
  apply (launchInTerminal_rejects_on_shadowed_method host LinuxTerminalService
           "/tmp" ["node"] (Some 1%nat) s
           (mkObject [("PATH", "/bin"); ("hasOwnProperty", "1")] [])
           (Some (mkObject [("FOO", "1")] []))).
  - right. split; reflexivity.
  - reflexivity.
  - cbn. eauto.
  - intros [Hma _]. discriminate Hma.
Defined.
